(** * Bridge criticality analysis: a shallow embedding of the notebook

    The notebook [bridge_criticality_analysis.ipynb] loads two tables,
    cleans the functionality column, scores every bridge per buffer
    distance and tabulates the ten most critical bridges per buffer.

    Tables are lists of rows (records), columns are record fields and
    column-wise pandas expressions are maps over the rows.

    Numbers.  The notebook computes on IEEE binary64 values.  They are
    modelled by [float]: an exact rational, one of the two infinities or
    NaN.  Arithmetic on finite values is exact (rounding, overflow and the
    sign of zero are abstracted away); division by zero, infinities and NaN
    follow IEEE 754, which is what pandas/numpy column arithmetic does (no
    exception is raised).  Buffer distances are integers.  In binary64
    two results that differ as rationals can round to the same value, and
    a difference [max - min] of finite values can overflow; both are
    outside the model.

    Exceptions.  The cells of the notebook that can raise on a table that
    was read successfully are modelled with a [result]: the accessor [.str]
    on a column that is not text ([AttributeError]), [astype(float)] on a
    text that is not a number ([ValueError]), [pd.concat] of an empty list
    ([ValueError]) and [summary_df['Bridge IOP']] on a summary without rows
    ([KeyError]).  [normalize], [all_scores_df] and [bridge_frequency] are
    these steps on the inputs on which they do not raise for those reasons:
    a column of texts, an efficiency table with a row, a summary with a
    row; [preprocess], [notebook_all_scores_df] and
    [notebook_bridge_frequency] are the same steps on every input.

    Library calls.  [str.rstrip], [float], [Series.min], [Series.max],
    [Series.unique], [sorted], [pd.merge], [head] and [value_counts] are
    modelled after their documented behaviour.  [sort_values] is called
    with the default [kind], which does not fix the order of equal keys:
    the sorting algorithm is a parameter, constrained by what the
    documentation guarantees. *)

From Stdlib Require Import String Ascii Bool Arith ZArith QArith Qabs
  Qpower Lia Lqa List Permutation Sorted.
Import ListNotations.

Set Implicit Arguments.
Close Scope Q_scope.

(* ================================================================== *)
(** * Floating-point values *)
(* ================================================================== *)

Inductive float : Type :=
| Fin (q : Q)
| PInf
| NInf
| NaN.

Definition Qltb (x y : Q) : bool := negb (Qle_bool y x).

Definition finite (x : float) : Prop :=
  match x with Fin _ => True | _ => False end.

Definition is_finite (x : float) : bool :=
  match x with Fin _ => true | _ => false end.

(** pandas [notna] *)
Definition notna (x : float) : bool :=
  match x with NaN => false | _ => true end.

Definition fneg (x : float) : float :=
  match x with
  | Fin q => Fin (- q)
  | PInf => NInf
  | NInf => PInf
  | NaN => NaN
  end.

(** [Series.abs()] *)
Definition fabs (x : float) : float :=
  match x with
  | Fin q => Fin (Qabs q)
  | PInf | NInf => PInf
  | NaN => NaN
  end.

Definition fadd (x y : float) : float :=
  match x, y with
  | NaN, _ | _, NaN => NaN
  | Fin a, Fin b => Fin (a + b)
  | PInf, NInf | NInf, PInf => NaN
  | PInf, _ | _, PInf => PInf
  | NInf, _ | _, NInf => NInf
  end.

Definition fsub (x y : float) : float := fadd x (fneg y).

(** Division as numpy performs it on float64 columns: a zero divisor
    yields NaN (0/0) or an infinity (x/0, x <> 0); nothing is raised. *)
Definition fdiv (x y : float) : float :=
  match x, y with
  | NaN, _ | _, NaN => NaN
  | Fin a, Fin b =>
      if Qeq_bool b 0 then
        if Qeq_bool a 0 then NaN
        else if Qltb 0 a then PInf else NInf
      else Fin (a / b)
  | Fin _, (PInf | NInf) => Fin 0
  | PInf, Fin b => if Qltb b 0 then NInf else PInf
  | NInf, Fin b => if Qltb b 0 then PInf else NInf
  | (PInf | NInf), (PInf | NInf) => NaN
  end.

(** [x < y]; false as soon as one side is NaN. *)
Definition fltb (x y : float) : bool :=
  match x, y with
  | NaN, _ | _, NaN => false
  | Fin a, Fin b => Qltb a b
  | NInf, NInf => false
  | NInf, _ => true
  | _, NInf => false
  | PInf, _ => false
  | _, PInf => true
  end.

(** [x == y]; false as soon as one side is NaN. *)
Definition feqb (x y : float) : bool :=
  match x, y with
  | Fin a, Fin b => Qeq_bool a b
  | PInf, PInf | NInf, NInf => true
  | _, _ => false
  end.

Definition fone : float := Fin 1.
Definition ftwo : float := Fin 2.

Definition fmin2 (a b : float) : float := if fltb b a then b else a.
Definition fmax2 (a b : float) : float := if fltb a b then b else a.

(** [Series.min()] and [Series.max()]: NaN entries are skipped
    ([skipna=True]); the result is NaN when nothing is left. *)
Definition Series_min (col : list float) : float :=
  match filter notna col with
  | [] => NaN
  | x :: t => fold_left fmin2 t x
  end.

Definition Series_max (col : list float) : float :=
  match filter notna col with
  | [] => NaN
  | x :: t => fold_left fmax2 t x
  end.

(* ================================================================== *)
(** * Strings: [str.rstrip] and [float(str)] *)
(* ================================================================== *)

Definition chars (s : string) : list ascii := list_ascii_of_string s.

Fixpoint lstrip (p : ascii -> bool) (l : list ascii) : list ascii :=
  match l with
  | [] => []
  | c :: t => if p c then lstrip p t else l
  end.

(** [s.rstrip(chars)]: every trailing character that belongs to the set
    is removed, not just one. *)
Definition rstrip (p : ascii -> bool) (l : list ascii) : list ascii :=
  rev (lstrip p (rev l)).

Definition is_percent (c : ascii) : bool := Ascii.eqb c "%"%char.

Definition is_space (c : ascii) : bool :=
  let n := nat_of_ascii c in
  Nat.eqb n 32 || (Nat.leb 9 n && Nat.leb n 13).

Definition is_digit (c : ascii) : bool :=
  let n := nat_of_ascii c in Nat.leb 48 n && Nat.leb n 57.

Definition digit_val (c : ascii) : Z := (Z.of_nat (nat_of_ascii c) - 48)%Z.

Definition lower (c : ascii) : ascii :=
  let n := nat_of_ascii c in
  if Nat.leb 65 n && Nat.leb n 90 then ascii_of_nat (n + 32) else c.

Fixpoint span (p : ascii -> bool) (l : list ascii)
  : list ascii * list ascii :=
  match l with
  | [] => ([], [])
  | c :: t =>
      if p c then let (a, b) := span p t in (c :: a, b) else ([], l)
  end.

Definition digits_val (ds : list ascii) : Z :=
  fold_left (fun acc c => (10 * acc + digit_val c)%Z) ds 0%Z.

(** Underscores are accepted between two digits only and are dropped
    before the number is read (PEP 515).  [prev] is the previous
    character of the input. *)
Fixpoint drop_underscores (prev : option ascii) (l : list ascii)
  : option (list ascii) :=
  match l with
  | [] =>
      match prev with
      | Some p => if Ascii.eqb p "_"%char then None else Some []
      | None => Some []
      end
  | c :: t =>
      if Ascii.eqb c "_"%char then
        match prev with
        | Some p => if is_digit p then drop_underscores (Some c) t else None
        | None => None
        end
      else
        let after_underscore :=
          match prev with
          | Some p => Ascii.eqb p "_"%char
          | None => false
          end in
        if after_underscore && negb (is_digit c) then None
        else option_map (cons c) (drop_underscores (Some c) t)
  end.

(** An optional sign: whether it is a minus, and what follows it. *)
Definition split_sign (l : list ascii) : bool * list ascii :=
  match l with
  | [] => (false, l)
  | c :: t =>
      if Ascii.eqb c "-"%char then (true, t)
      else if Ascii.eqb c "+"%char then (false, t)
      else (false, l)
  end.

(** The optional exponent part; the whole rest of the input must be
    consumed. *)
Definition parse_exponent (l : list ascii) : option Z :=
  match l with
  | [] => Some 0%Z
  | c :: t =>
      if Ascii.eqb (lower c) "e"%char then
        let (neg, u) := split_sign t in
        let (ds, r) := span is_digit u in
        match ds, r with
        | _ :: _, [] =>
            Some (if neg then (- digits_val ds)%Z else digits_val ds)
        | _, _ => None
        end
      else None
  end.

(** After the integer digits: an optional point followed by optional
    digits.  Returns the fraction digits and what follows them. *)
Definition split_fraction (l : list ascii) : list ascii * list ascii :=
  match l with
  | [] => ([], l)
  | c :: t => if Ascii.eqb c "."%char then span is_digit t else ([], l)
  end.

(** Unsigned decimal literal: digits, an optional point with optional
    digits (at least one digit overall), an optional exponent. *)
Definition parse_decimal (l : list ascii) : option Q :=
  let (ip, r1) := span is_digit l in
  let (fp, r2) := split_fraction r1 in
  match ip ++ fp with
  | [] => None
  | _ :: _ =>
      match parse_exponent r2 with
      | Some e =>
          Some (inject_Z (digits_val (ip ++ fp))
                * Qpower (10 # 1) (e - Z.of_nat (length fp)))%Q
      | None => None
      end
  end.

Definition parse_unsigned (l : list ascii) : option float :=
  let w := map lower l in
  if list_eq_dec ascii_dec w (chars "inf") then Some PInf
  else if list_eq_dec ascii_dec w (chars "infinity") then Some PInf
  else if list_eq_dec ascii_dec w (chars "nan") then Some NaN
  else option_map Fin (parse_decimal l).

(** Python's [float(s)] on a string: surrounding white space is
    ignored, then a sign, then [inf], [infinity], [nan] or a decimal
    literal.  [None] stands for the [ValueError] it raises. *)
Definition float_of_chars (l : list ascii) : option float :=
  match drop_underscores None (rstrip is_space (lstrip is_space l)) with
  | None => None
  | Some body =>
      let (neg, t) := split_sign body in
      if neg then option_map fneg (parse_unsigned t) else parse_unsigned t
  end.

Definition float_of_string (s : string) : option float :=
  float_of_chars (chars s).

(* ================================================================== *)
(** * Normalizer (cell "Data Preprocessing") *)
(* ================================================================== *)

(** One cell of the column:
    [x.rstrip('%')] followed by the conversion to float. *)
Definition clean_functionality (s : string) : option float :=
  float_of_chars (rstrip is_percent (chars s)).

(** [functionality_df['Functionality'].str.rstrip('%').astype(float)] on
    a column in which every cell is a text: the conversion of the whole
    column raises as soon as one cell does.  Columns loaded as numbers and
    empty cells are handled by [clean_column] below. *)
Fixpoint astype_float (col : list (list ascii)) : option (list float) :=
  match col with
  | [] => Some []
  | s :: t =>
      match float_of_chars s, astype_float t with
      | Some x, Some xs => Some (x :: xs)
      | _, _ => None
      end
  end.

Definition str_rstrip_percent (col : list string) : list (list ascii) :=
  map (fun s => rstrip is_percent (chars s)) col.

(** A row of the functionality table when the column [Functionality]
    was loaded as text and has no empty cell: columns [IOP] and
    [Functionality] (a percent string). *)
Record RawFunctionalityRow : Type := {
  IOP : string;
  Functionality_str : string
}.

(** The functionality table after preprocessing: column [IOP] renamed to
    [Bridge IOP], column [Functionality] numeric. *)
Record FunctionalityRow : Type := {
  func_Bridge_IOP : string;
  func_Functionality : float
}.

(** The table rebuilt from the converted column, with [IOP] renamed to
    [Bridge IOP]. *)
Definition normalized_rows (functionality_df : list RawFunctionalityRow)
  (col : list float) : list FunctionalityRow :=
  map (fun p => {| func_Bridge_IOP := IOP (fst p);
                   func_Functionality := snd p |})
      (combine functionality_df col).

(** The preprocessing of a table whose column [Functionality] is text
    in every cell; [None] stands for the [ValueError] of [astype(float)].
    The general case, with an empty cell or a column loaded as numbers, is
    [preprocess]. *)
Definition normalize (functionality_df : list RawFunctionalityRow)
  : option (list FunctionalityRow) :=
  match astype_float
          (str_rstrip_percent (map Functionality_str functionality_df)) with
  | None => None
  | Some col => Some (normalized_rows functionality_df col)
  end.

(* ================================================================== *)
(** * Tables *)
(* ================================================================== *)

(** A row of [efficiency_results_all_bridges.csv].  Buffer distances
    are whole kilometres (the notebook indexes [results[5]]). *)
Record EfficiencyRow : Type := {
  Bridge_IOP : string;
  OSM_ID : string;
  Highway_Type : string;
  Buffer_Distance_km : Z;
  Original_Global_Efficiency : float;
  New_Global_Efficiency : float;
  Change_in_Efficiency : float
}.

(** A row of [merged_df] right after [pd.merge]: the columns of the
    efficiency row followed by [Functionality]. *)
Record MergedRow : Type := {
  eff : EfficiencyRow;
  Functionality : float
}.

(** A row of [merged_df] once every derived column has been added. *)
Record ScoredRow : Type := {
  merged : MergedRow;
  Normalized_Efficiency_Change : float;
  Norm_Func : float;
  Norm_Eff : float;
  Criticality_Score : float;
  Relative_Efficiency_Change : float;
  Absolute_Relative_Efficiency_Change : float
}.

Definition row_Bridge_IOP (r : ScoredRow) : string :=
  Bridge_IOP (eff (merged r)).
Definition row_Buffer (r : ScoredRow) : Z :=
  Buffer_Distance_km (eff (merged r)).
Definition row_Functionality (r : ScoredRow) : float :=
  Functionality (merged r).

(* ================================================================== *)
(** * Scorer (cell "Calculate Bridge Criticality Scores") *)
(* ================================================================== *)

(** Insertion into a list ordered by [before]: the new element goes in
    front of the first element it may precede. *)
Fixpoint insert_before (A : Type) (before : A -> A -> bool) (x : A)
  (l : list A) : list A :=
  match l with
  | [] => [x]
  | y :: t => if before x y then x :: l else y :: insert_before before x t
  end.

(** A stable sort: equal elements keep their order. *)
Definition stable_sort (A : Type) (before : A -> A -> bool) (l : list A)
  : list A :=
  fold_right (insert_before before) [] l.

(** [sorted(xs)] on integers (Python's [sorted] is stable). *)
Definition sorted (l : list Z) : list Z := stable_sort Z.leb l.

(** [Series.unique()]: the distinct values in order of first
    appearance. *)
Fixpoint unique (A : Type) (eqb : A -> A -> bool) (l : list A) : list A :=
  match l with
  | [] => []
  | x :: t => x :: filter (fun y => negb (eqb y x)) (unique eqb t)
  end.

(** [buffer_distances = sorted(efficiency_df['Buffer Distance (km)'].unique())] *)
Definition buffer_distances (efficiency_df : list EfficiencyRow) : list Z :=
  sorted (unique Z.eqb (map Buffer_Distance_km efficiency_df)).

(** [efficiency_df[efficiency_df['Buffer Distance (km)'] == buffer]] *)
Definition buffer_rows (efficiency_df : list EfficiencyRow) (buffer : Z)
  : list EfficiencyRow :=
  filter (fun r => (Buffer_Distance_km r =? buffer)%Z) efficiency_df.

(** [pd.merge(left, right[['Bridge IOP', 'Functionality']],
    on='Bridge IOP', how='inner')]: one row per pair of a left and a
    right row with the same key, following the order of the left table. *)
Definition merge (left : list EfficiencyRow) (right : list FunctionalityRow)
  : list MergedRow :=
  flat_map
    (fun l =>
       map (fun r => {| eff := l; Functionality := func_Functionality r |})
           (filter (fun r => String.eqb (Bridge_IOP l) (func_Bridge_IOP r))
                   right))
    left.

(** [merged_df['Change in Efficiency'].abs()], the column
    [Normalized Efficiency Change], on one row. *)
Definition abs_change (m : MergedRow) : float :=
  fabs (Change_in_Efficiency (eff m)).

(** The body of the loop between the merge and [results[buffer] = ...]:
    every derived column, computed from the group's own minima and
    maxima. *)
Definition score (merged_df : list MergedRow) : list ScoredRow :=
  let min_func := Series_min (map Functionality merged_df) in
  let max_func := Series_max (map Functionality merged_df) in
  let min_eff := Series_min (map abs_change merged_df) in
  let max_eff := Series_max (map abs_change merged_df) in
  map
    (fun m =>
       let nec := abs_change m in
       let norm_func :=
         fsub fone (fdiv (fsub (Functionality m) min_func)
                         (fsub max_func min_func)) in
       let norm_eff := fdiv (fsub nec min_eff) (fsub max_eff min_eff) in
       let rel :=
         fdiv (Change_in_Efficiency (eff m))
              (Original_Global_Efficiency (eff m)) in
       {| merged := m;
          Normalized_Efficiency_Change := nec;
          Norm_Func := norm_func;
          Norm_Eff := norm_eff;
          Criticality_Score := fdiv (fadd norm_func norm_eff) ftwo;
          Relative_Efficiency_Change := rel;
          Absolute_Relative_Efficiency_Change := fabs rel |})
    merged_df.

(** [merged_df['Buffer Distance (km)'] = buffer] *)
Definition set_buffer (buffer : Z) (r : ScoredRow) : ScoredRow :=
  let e := eff (merged r) in
  {| merged :=
       {| eff := {| Bridge_IOP := Bridge_IOP e;
                    OSM_ID := OSM_ID e;
                    Highway_Type := Highway_Type e;
                    Buffer_Distance_km := buffer;
                    Original_Global_Efficiency := Original_Global_Efficiency e;
                    New_Global_Efficiency := New_Global_Efficiency e;
                    Change_in_Efficiency := Change_in_Efficiency e |};
          Functionality := Functionality (merged r) |};
     Normalized_Efficiency_Change := Normalized_Efficiency_Change r;
     Norm_Func := Norm_Func r;
     Norm_Eff := Norm_Eff r;
     Criticality_Score := Criticality_Score r;
     Relative_Efficiency_Change := Relative_Efficiency_Change r;
     Absolute_Relative_Efficiency_Change :=
       Absolute_Relative_Efficiency_Change r |}.

(** The table of one buffer distance: [merged_df] of the loop body. *)
Definition merged_df (efficiency_df : list EfficiencyRow)
  (functionality_df : list FunctionalityRow) (buffer : Z) : list MergedRow :=
  merge (buffer_rows efficiency_df buffer) functionality_df.

(** One iteration of the loop: the table appended to
    [all_criticality_scores]. *)
Definition process_buffer (efficiency_df : list EfficiencyRow)
  (functionality_df : list FunctionalityRow) (buffer : Z) : list ScoredRow :=
  map (set_buffer buffer)
      (score (merged_df efficiency_df functionality_df buffer)).

Definition all_criticality_scores (efficiency_df : list EfficiencyRow)
  (functionality_df : list FunctionalityRow) : list (list ScoredRow) :=
  map (process_buffer efficiency_df functionality_df)
      (buffer_distances efficiency_df).

(** [all_scores_df = pd.concat(all_criticality_scores, ignore_index=True)],
    the table [pd.concat] returns when the list is not empty, that is when
    the efficiency table has a row; [notebook_all_scores_df] below covers
    the empty list, on which [pd.concat] raises. *)
Definition all_scores_df (efficiency_df : list EfficiencyRow)
  (functionality_df : list FunctionalityRow) : list ScoredRow :=
  concat (all_criticality_scores efficiency_df functionality_df).

(** Two floats denote the same value. *)
Definition float_eq (x y : float) : Prop :=
  match x, y with
  | Fin a, Fin b => (a == b)%Q
  | PInf, PInf | NInf, NInf | NaN, NaN => True
  | _, _ => False
  end.

(** The inputs of a merged row are ordinary numbers, as the data model
    has them. *)
Definition finite_row (m : MergedRow) : Prop :=
  finite (Functionality m) /\ finite (Change_in_Efficiency (eff m)).


(* ================================================================== *)
(** * The scenario of the specification *)
(* ================================================================== *)

(** Two efficiency rows at buffer 5, both with original efficiency
    0.50: B1 loses 0.02 and B2 loses 0.01. *)
Definition scenario_efficiency_df : list EfficiencyRow :=
  [ {| Bridge_IOP := "B1"; OSM_ID := "1"; Highway_Type := "primary";
       Buffer_Distance_km := 5;
       Original_Global_Efficiency := Fin 0.50;
       New_Global_Efficiency := Fin 0.48;
       Change_in_Efficiency := Fin (-0.02) |};
    {| Bridge_IOP := "B2"; OSM_ID := "2"; Highway_Type := "primary";
       Buffer_Distance_km := 5;
       Original_Global_Efficiency := Fin 0.50;
       New_Global_Efficiency := Fin 0.49;
       Change_in_Efficiency := Fin (-0.01) |} ].

(** The functionality table of the scenario, as loaded. *)
Definition scenario_raw_functionality_df : list RawFunctionalityRow :=
  [ {| IOP := "B1"; Functionality_str := "80%" |};
    {| IOP := "B2"; Functionality_str := "90%" |} ].

(** The same table after preprocessing. *)
Definition scenario_functionality_df : list FunctionalityRow :=
  [ {| func_Bridge_IOP := "B1"; func_Functionality := Fin 80 |};
    {| func_Bridge_IOP := "B2"; func_Functionality := Fin 90 |} ].

Definition scenario_group : list MergedRow :=
  merged_df scenario_efficiency_df scenario_functionality_df 5.

Definition scenario_scores : list ScoredRow :=
  all_scores_df scenario_efficiency_df scenario_functionality_df.

(** A group whose two bridges have the same functionality. *)
Definition flat_functionality_group : list MergedRow :=
  merged_df scenario_efficiency_df
    [ {| func_Bridge_IOP := "B1"; func_Functionality := Fin 80 |};
      {| func_Bridge_IOP := "B2"; func_Functionality := Fin 80 |} ] 5.

(** A single bridge measured on a network whose efficiency is 0 before
    and after the removal. *)
Definition zero_efficiency_df : list EfficiencyRow :=
  [ {| Bridge_IOP := "B1"; OSM_ID := "1"; Highway_Type := "primary";
       Buffer_Distance_km := 5;
       Original_Global_Efficiency := Fin 0;
       New_Global_Efficiency := Fin 0;
       Change_in_Efficiency := Fin 0 |} ].

(** The characters that can occur in a string [float] accepts. *)
Definition numeric_char (c : ascii) : bool :=
  is_space c || is_digit c
  || existsb (Ascii.eqb (lower c)) (chars "+-._einfatyn").

(** The text ends with a percent sign. *)
Definition ends_with_percent (l : list ascii) : bool :=
  match rev l with
  | [] => false
  | c :: _ => is_percent c
  end.

(* ================================================================== *)
(** * Reporter (cells "Identify Most Critical Bridges" and "Analyze
      Bridge Criticality Patterns") *)
(* ================================================================== *)

(** [DataFrame.sort_values] and [Series.sort_values] are called without
    [kind], so pandas uses its default, [kind='quicksort'], which its
    documentation lists as not stable.  The sorting algorithm is therefore a
    parameter of the reporter; what the documentation promises of it is
    [sort_contract]: the result is a rearrangement of the input, ordered by
    the given key order. *)
Definition sort_algorithm : Type :=
  forall A : Type, (A -> A -> bool) -> list A -> list A.

Definition total (A : Type) (before : A -> A -> bool) : Prop :=
  forall x y, before x y = true \/ before y x = true.

Definition transitive (A : Type) (before : A -> A -> bool) : Prop :=
  forall x y z, before x y = true -> before y z = true -> before x z = true.

Definition sort_contract (sort : sort_algorithm) : Prop :=
  (forall (A : Type) (before : A -> A -> bool) (l : list A),
      Permutation (sort A before l) l) /\
  (forall (A : Type) (before : A -> A -> bool),
      total before -> transitive before ->
      forall l, StronglySorted (fun x y => before x y = true)
                               (sort A before l)).

(** Two algorithms that meet the contract: the stable insertion sort,
    and an insertion sort that puts a new element behind the elements equal
    to it, which reverses the order of equal elements. *)
Definition stable_sort_algorithm : sort_algorithm :=
  fun A before l => stable_sort before l.

Definition tie_reversing_sort : sort_algorithm :=
  fun A before l => stable_sort (fun x y => negb (before y x)) l.

(** Descending order of scores, NaN last ([ascending=False],
    [na_position='last']): [a] may stand before [b]. *)
Definition score_before (a b : float) : bool :=
  match a, b with
  | _, NaN => true
  | NaN, _ => false
  | _, _ => negb (fltb a b)
  end.

Definition row_before (r1 r2 : ScoredRow) : bool :=
  score_before (Criticality_Score r1) (Criticality_Score r2).

(** A row of [summary_df]. *)
Record SummaryRow : Type := {
  s_Buffer_Distance_km : Z;
  s_Bridge_IOP : string;
  s_OSM_ID : string;
  s_Highway_Type : string;
  s_Functionality_pct : float;
  s_Criticality_Score : float;
  s_Normalized_Efficiency_Change : float;
  s_Absolute_Relative_Efficiency_Change : float
}.

Definition summary_row (buffer : Z) (bridge : ScoredRow) : SummaryRow :=
  {| s_Buffer_Distance_km := buffer;
     s_Bridge_IOP := row_Bridge_IOP bridge;
     s_OSM_ID := OSM_ID (eff (merged bridge));
     s_Highway_Type := Highway_Type (eff (merged bridge));
     s_Functionality_pct := row_Functionality bridge;
     s_Criticality_Score := Criticality_Score bridge;
     s_Normalized_Efficiency_Change := Normalized_Efficiency_Change bridge;
     s_Absolute_Relative_Efficiency_Change :=
       Absolute_Relative_Efficiency_Change bridge |}.

(** [all_scores_df[all_scores_df['Buffer Distance (km)'] == buffer]] *)
Definition buffer_scores (all_scores : list ScoredRow) (buffer : Z)
  : list ScoredRow :=
  filter (fun r => (row_Buffer r =? buffer)%Z) all_scores.

(** A [Series] indexed by labels, as [value_counts] returns it. *)
Definition series_get (s : list (string * nat)) (label : string)
  : option nat :=
  option_map snd (find (fun p => String.eqb (fst p) label) s).

Section Reporter.

Variable sort : sort_algorithm.

(** [df.sort_values('Criticality Score', ascending=False)] *)
Definition sort_values_desc (df : list ScoredRow) : list ScoredRow :=
  @sort ScoredRow row_before df.

(** [buffer_scores.sort_values(...).head(10)] *)
Definition top_bridges (scores : list ScoredRow) : list ScoredRow :=
  firstn 10 (sort_values_desc scores).

(** The top ten of one buffer distance, taken from [all_scores_df]. *)
Definition top_of_buffer (all_scores : list ScoredRow) (buffer : Z)
  : list ScoredRow :=
  top_bridges (buffer_scores all_scores buffer).

(** [summary_df]: for every buffer distance in turn, one row per
    bridge of its top ten. *)
Definition summary_df (buffers : list Z) (all_scores : list ScoredRow)
  : list SummaryRow :=
  flat_map
    (fun buffer =>
       map (summary_row buffer) (top_of_buffer all_scores buffer))
    buffers.

(** [Series.value_counts()]: every distinct label with its number of
    occurrences, sorted by descending count. *)
Definition value_counts (col : list string) : list (string * nat) :=
  @sort (string * nat)%type
       (fun p q => Nat.leb (snd q) (snd p))
       (map (fun label => (label, count_occ string_dec col label))
            (unique String.eqb col)).

(** [bridge_frequency = summary_df['Bridge IOP'].value_counts()], the
    series computed when the summary has a row; a summary without rows has
    no column [Bridge IOP], see [summary_bridge_frequency] below. *)
Definition bridge_frequency (summary : list SummaryRow)
  : list (string * nat) :=
  value_counts (map s_Bridge_IOP summary).

(** The whole notebook up to [bridge_frequency]. *)
Definition notebook_summary_df (efficiency_df : list EfficiencyRow)
  (functionality_df : list FunctionalityRow) : list SummaryRow :=
  summary_df (buffer_distances efficiency_df)
             (all_scores_df efficiency_df functionality_df).

(** How often a bridge is counted; a label that is absent from the
    index counts 0 times.  (When the summary has no row the notebook has
    stopped before, see [notebook_bridge_frequency].) *)
Definition frequency (efficiency_df : list EfficiencyRow)
  (functionality_df : list FunctionalityRow) (bridge : string) : nat :=
  match series_get
          (bridge_frequency
             (notebook_summary_df efficiency_df functionality_df))
          bridge with
  | Some n => n
  | None => 0
  end.

End Reporter.

(** The efficiency row has a row of the functionality table with the
    same bridge. *)
Definition has_partner (functionality_df : list FunctionalityRow)
  (e : EfficiencyRow) : bool :=
  existsb (fun r => String.eqb (Bridge_IOP e) (func_Bridge_IOP r))
          functionality_df.



(** One bridge of the functionality table and two efficiency rows of
    that bridge at buffer 5 (the bridge is made of two road segments). *)
Definition single_functionality_df : list FunctionalityRow :=
  [ {| func_Bridge_IOP := "B1"; func_Functionality := Fin 80 |} ].

Definition doubled_efficiency_df : list EfficiencyRow :=
  [ {| Bridge_IOP := "B1"; OSM_ID := "1"; Highway_Type := "primary";
       Buffer_Distance_km := 5;
       Original_Global_Efficiency := Fin 0.50;
       New_Global_Efficiency := Fin 0.48;
       Change_in_Efficiency := Fin (-0.02) |};
    {| Bridge_IOP := "B1"; OSM_ID := "2"; Highway_Type := "primary";
       Buffer_Distance_km := 5;
       Original_Global_Efficiency := Fin 0.50;
       New_Global_Efficiency := Fin 0.49;
       Change_in_Efficiency := Fin (-0.01) |} ].

(** In the selection [top], rows with the same score stand in the same
    relative order as in [scores] (what a stable sort would give). *)
Definition ties_keep_order (scores top : list ScoredRow) : Prop :=
  forall s : float,
    exists rest,
      filter (fun r => feqb (Criticality_Score r) s) scores =
      filter (fun r => feqb (Criticality_Score r) s) top ++ rest.

(** The bridge occurs in the top ten of the buffer distance. *)
Definition in_top_of_buffer (sort : sort_algorithm)
  (all_scores : list ScoredRow) (bridge : string) (buffer : Z) : bool :=
  existsb (fun r => String.eqb (row_Bridge_IOP r) bridge)
          (top_of_buffer sort all_scores buffer).

(** The scenario repeated at eleven buffer distances, 5 km to 55 km. *)
Definition eleven_buffers : list Z :=
  [5; 10; 15; 20; 25; 30; 35; 40; 45; 50; 55]%Z.

Definition eleven_buffers_efficiency_df : list EfficiencyRow :=
  flat_map
    (fun b =>
       [ {| Bridge_IOP := "B1"; OSM_ID := "1"; Highway_Type := "primary";
            Buffer_Distance_km := b;
            Original_Global_Efficiency := Fin 0.50;
            New_Global_Efficiency := Fin 0.48;
            Change_in_Efficiency := Fin (-0.02) |};
         {| Bridge_IOP := "B2"; OSM_ID := "2"; Highway_Type := "primary";
            Buffer_Distance_km := b;
            Original_Global_Efficiency := Fin 0.50;
            New_Global_Efficiency := Fin 0.49;
            Change_in_Efficiency := Fin (-0.01) |} ])
    eleven_buffers.

(* ================================================================== *)
(** * The rest of the notebook *)
(* ================================================================== *)

(** A Python [dict] with integer keys: assignment replaces the value of
    a key that is present and appends a new key otherwise; reading a
    missing key raises [KeyError] ([None]). *)
Fixpoint dict_set (V : Type) (d : list (Z * V)) (k : Z) (v : V)
  : list (Z * V) :=
  match d with
  | [] => [(k, v)]
  | (k', v') :: t =>
      if (k' =? k)%Z then (k, v) :: t else (k', v') :: dict_set t k v
  end.

Fixpoint dict_get (V : Type) (d : list (Z * V)) (k : Z) : option V :=
  match d with
  | [] => None
  | (k', v) :: t => if (k' =? k)%Z then Some v else dict_get t k
  end.

(** The two variables the scoring loop updates. *)
Record LoopState : Type := {
  results : list (Z * list ScoredRow);
  scores_so_far : list (list ScoredRow)
}.

(** One pass through the body of [for buffer in buffer_distances]:
    [results[buffer]] receives a copy of the scored table as it is before
    the buffer column is overwritten, [all_criticality_scores] the table
    after it. *)
Definition loop_body (efficiency_df : list EfficiencyRow)
  (functionality_df : list FunctionalityRow) (st : LoopState) (buffer : Z)
  : LoopState :=
  let scored := score (merged_df efficiency_df functionality_df buffer) in
  {| results := dict_set (results st) buffer scored;
     scores_so_far := scores_so_far st ++ [map (set_buffer buffer) scored] |}.

(** The whole loop, started with [results = {}] and
    [all_criticality_scores = []]. *)
Definition scoring_loop (efficiency_df : list EfficiencyRow)
  (functionality_df : list FunctionalityRow) : LoopState :=
  fold_left (loop_body efficiency_df functionality_df)
            (buffer_distances efficiency_df)
            {| results := []; scores_so_far := [] |}.

(** [frequent_bridges = bridge_frequency[bridge_frequency > 1]] *)
Definition frequent_bridges (frequency_series : list (string * nat))
  : list (string * nat) :=
  filter (fun p => Nat.ltb 1 (snd p)) frequency_series.

(** [frequent_bridges.index[0]], read only [if len(frequent_bridges) > 0]. *)
Definition most_frequent_bridge (frequent : list (string * nat))
  : option string :=
  match frequent with
  | [] => None
  | p :: _ => Some (fst p)
  end.

(** [summary_df[summary_df['Bridge IOP'] == bridge]] *)
Definition bridge_details (summary : list SummaryRow) (bridge : string)
  : list SummaryRow :=
  filter (fun r => String.eqb (s_Bridge_IOP r) bridge) summary.

(** [bridge_frequency[bridge_frequency >= 3].index.tolist()[:5]], the
    bridges whose trajectories are drawn. *)
Definition plotted_bridges (frequency_series : list (string * nat))
  : list string :=
  firstn 5 (map fst (filter (fun p => Nat.leb 3 (snd p)) frequency_series)).

(** The cell of the 4 x 3 grid that receives the subplot of the [i]-th
    buffer distance: [row = i // 3], [col = i % 3]; [gs[row, col]] raises
    [IndexError] outside the grid ([None]). *)
Definition subplot_cell (i : nat) : option (nat * nat) :=
  let row := i / 3 in
  let col := i mod 3 in
  if Nat.ltb row 4 && Nat.ltb col 3 then Some (row, col) else None.

(** The cells taken by the subplots of [n] buffer distances, in order;
    [None] as soon as one lies outside the grid. *)
Fixpoint subplot_cells_from (i n : nat) : option (list (nat * nat)) :=
  match n with
  | O => Some []
  | S n' =>
      match subplot_cell i, subplot_cells_from (S i) n' with
      | Some c, Some cs => Some (c :: cs)
      | _, _ => None
      end
  end.

Definition subplot_cells (n : nat) : option (list (nat * nat)) :=
  subplot_cells_from 0 n.

(** [if len(buffer_distances) < 12]: the colorbar goes to [gs[3, 2]]. *)
Definition colorbar_cell (n : nat) : option (nat * nat) :=
  if Nat.ltb n 12 then Some (3, 2) else None.

(** The merged row with the sign of [Change in Efficiency] reversed. *)
Definition negate_change (m : MergedRow) : MergedRow :=
  let e := eff m in
  {| eff := {| Bridge_IOP := Bridge_IOP e;
               OSM_ID := OSM_ID e;
               Highway_Type := Highway_Type e;
               Buffer_Distance_km := Buffer_Distance_km e;
               Original_Global_Efficiency := Original_Global_Efficiency e;
               New_Global_Efficiency := New_Global_Efficiency e;
               Change_in_Efficiency := fneg (Change_in_Efficiency e) |};
     Functionality := Functionality m |}.

(** [x <= y] on finite values. *)
Definition fle (x y : float) : Prop :=
  match x, y with
  | Fin a, Fin b => (a <= b)%Q
  | _, _ => False
  end.

(** The group with the sign of the change reversed in the rows that
    [flip] selects. *)
Definition flip_changes (flip : MergedRow -> bool) (group : list MergedRow)
  : list MergedRow :=
  map (fun m => if flip m then negate_change m else m) group.

(** Two efficiency rows at buffer 10, for the bridges of the scenario. *)
Definition ten_km_efficiency_df : list EfficiencyRow :=
  [ {| Bridge_IOP := "B1"; OSM_ID := "1"; Highway_Type := "primary";
       Buffer_Distance_km := 10;
       Original_Global_Efficiency := Fin 0.40;
       New_Global_Efficiency := Fin 0.39;
       Change_in_Efficiency := Fin (-0.01) |};
    {| Bridge_IOP := "B2"; OSM_ID := "2"; Highway_Type := "primary";
       Buffer_Distance_km := 10;
       Original_Global_Efficiency := Fin 0.40;
       New_Global_Efficiency := Fin 0.37;
       Change_in_Efficiency := Fin (-0.03) |} ].

(** A group of twelve bridges "A" to "L": eleven with functionality
    50, 51, ... and changes -0.01, -0.02, ..., and a twelfth whose
    functionality cell is NaN. *)
Definition lettered_row (i : nat) (functionality : float) : MergedRow :=
  {| eff := {| Bridge_IOP := String (ascii_of_nat (65 + i)) EmptyString;
               OSM_ID := "0"; Highway_Type := "primary";
               Buffer_Distance_km := 5;
               Original_Global_Efficiency := Fin 0.50;
               New_Global_Efficiency := Fin 0.40;
               Change_in_Efficiency :=
                 Fin (- (inject_Z (Z.of_nat (S i)) / 100)) |};
     Functionality := functionality |}.

Definition twelve_row_group : list MergedRow :=
  map (fun i => lettered_row i (Fin (inject_Z (Z.of_nat (50 + i)))))
      (seq 0 11)
  ++ [lettered_row 11 NaN].





(* ================================================================== *)
(** * Exceptions and the loaded functionality column *)
(* ================================================================== *)

(** The exceptions the notebook can stop with in the cells modelled
    here. *)
Inductive error : Type :=
| AttributeError
| ValueError
| KeyError.

Inductive result (A : Type) : Type :=
| Ok (a : A)
| Raise (e : error).

Arguments Ok {A} a.
Arguments Raise {A} e.

(** A cell of a column that [read_csv] loaded with dtype [object]: a
    text, or NaN for an empty cell. *)
Inductive Cell : Type :=
| Str (s : string)
| Missing.

(** The column [Functionality] as [read_csv] loads it: [read_csv] gives
    a float column when every cell is a number or empty, and an object
    column as soon as one cell is another text (then every non-empty cell
    is kept as text). *)
Inductive Column : Type :=
| ObjectColumn (cells : list Cell)
| FloatColumn (values : list float).

(** The functionality table as loaded: the column [IOP] and the column
    [Functionality], of the same length. *)
Record LoadedFunctionality : Type := {
  loaded_IOP : list string;
  loaded_Functionality : Column
}.

(** One cell through [.str.rstrip('%')] and [astype(float)]: [.str]
    leaves NaN as it is and [astype] keeps it; a text is stripped and given
    to [float], which may raise. *)
Definition clean_cell (c : Cell) : option float :=
  match c with
  | Str s => clean_functionality s
  | Missing => Some NaN
  end.

Fixpoint clean_cells (cells : list Cell) : option (list float) :=
  match cells with
  | [] => Some []
  | c :: t =>
      match clean_cell c, clean_cells t with
      | Some x, Some xs => Some (x :: xs)
      | _, _ => None
      end
  end.

(** [functionality_df['Functionality'].str.rstrip('%').astype(float)]
    on the loaded column: the accessor [.str] raises [AttributeError] on a
    column that is not text, and [astype(float)] raises [ValueError] on a
    text that is not a number. *)
Definition clean_column (col : Column) : result (list float) :=
  match col with
  | FloatColumn _ => Raise AttributeError
  | ObjectColumn cells =>
      match clean_cells cells with
      | Some values => Ok values
      | None => Raise ValueError
      end
  end.

(** The preprocessing of the loaded functionality table: the cleaned
    column, and [IOP] renamed to [Bridge IOP]. *)
Definition preprocess (df : LoadedFunctionality)
  : result (list FunctionalityRow) :=
  match clean_column (loaded_Functionality df) with
  | Raise e => Raise e
  | Ok values =>
      Ok (map (fun p => {| func_Bridge_IOP := fst p;
                           func_Functionality := snd p |})
              (combine (loaded_IOP df) values))
  end.

(** [pd.concat(tables, ignore_index=True)]: raises [ValueError] when
    there is no table to concatenate. *)
Definition pd_concat (tables : list (list ScoredRow))
  : result (list ScoredRow) :=
  match tables with
  | [] => Raise ValueError
  | _ :: _ => Ok (concat tables)
  end.

(** The cell that builds [all_scores_df], with its exception. *)
Definition notebook_all_scores_df (efficiency_df : list EfficiencyRow)
  (functionality_df : list FunctionalityRow) : result (list ScoredRow) :=
  pd_concat (all_criticality_scores efficiency_df functionality_df).

(** [summary_df['Bridge IOP'].value_counts()] with its exception:
    [pd.DataFrame(summary_rows)] of an empty list of rows has no column,
    and reading the column raises [KeyError]. *)
Definition summary_bridge_frequency (sort : sort_algorithm)
  (summary : list SummaryRow) : result (list (string * nat)) :=
  match summary with
  | [] => Raise KeyError
  | _ :: _ => Ok (bridge_frequency sort summary)
  end.

(** The notebook from the scoring loop to [bridge_frequency], with the
    exceptions of [pd.concat] and of the column access. *)
Definition notebook_bridge_frequency (sort : sort_algorithm)
  (efficiency_df : list EfficiencyRow)
  (functionality_df : list FunctionalityRow)
  : result (list (string * nat)) :=
  match notebook_all_scores_df efficiency_df functionality_df with
  | Raise e => Raise e
  | Ok all_scores =>
      summary_bridge_frequency sort
        (summary_df sort (buffer_distances efficiency_df) all_scores)
  end.


(** A functionality table with a text column in which one value has no
    percent sign, and one in which a value is not a number. *)
Definition mixed_loaded_df : LoadedFunctionality :=
  {| loaded_IOP := ["B1"; "B2"]%string;
     loaded_Functionality := ObjectColumn [Str "80%"; Str "93.4"] |}.

Definition broken_loaded_df : LoadedFunctionality :=
  {| loaded_IOP := ["B1"; "B2"]%string;
     loaded_Functionality := ObjectColumn [Str "80%"; Str "n.a.%"] |}.





(** A ladder of [n] bridges at buffer 5, K01, K02, ...: functionality
    falls by 5 from row to row, from 95 on, except that the last row repeats
    the row before it; the first row loses 0.01 of efficiency, the others
    0.02.  The scores rise from row to row, and the last two rows, whose
    inputs are the same, have the same score 1 whatever the rounding. *)
Definition ladder_labels : list string :=
  [ "K01"; "K02"; "K03"; "K04"; "K05"; "K06"; "K07"; "K08"; "K09";
    "K10"; "K11"; "K12"; "K13"; "K14"; "K15"; "K16"; "K17"; "K18" ]%string.

Definition ladder_functionality (n : nat) : list float :=
  map (fun i => Fin (inject_Z (100 - 5 * Z.of_nat i))) (seq 1 (n - 1))
  ++ [Fin (inject_Z (100 - 5 * Z.of_nat (n - 1)))].

Definition ladder_changes (n : nat) : list float :=
  Fin (-0.01) :: repeat (Fin (-0.02)) (n - 1).

Definition ladder_functionality_df (n : nat) : list FunctionalityRow :=
  map (fun p => {| func_Bridge_IOP := fst p; func_Functionality := snd p |})
      (combine ladder_labels (ladder_functionality n)).

Definition ladder_efficiency_df (n : nat) : list EfficiencyRow :=
  map (fun p =>
         {| Bridge_IOP := fst p; OSM_ID := "0"; Highway_Type := "primary";
            Buffer_Distance_km := 5;
            Original_Global_Efficiency := Fin 0.50;
            New_Global_Efficiency := fadd (Fin 0.50) (snd p);
            Change_in_Efficiency := snd p |})
      (combine ladder_labels (ladder_changes n)).

Definition ladder_scores (n : nat) : list ScoredRow :=
  buffer_scores
    (all_scores_df (ladder_efficiency_df n) (ladder_functionality_df n)) 5.


(* ================================================================== *)
(** * Facts about [float] *)
(* ================================================================== *)

Lemma Qltb_true (x y : Q) : Qltb x y = true <-> (x < y)%Q.
Proof.
  unfold Qltb. rewrite negb_true_iff. split.
  - intros H. apply Qnot_le_lt. intros L.
    apply Qle_bool_iff in L. congruence.
  - intros H. destruct (Qle_bool y x) eqn:E; [|reflexivity].
    apply Qle_bool_iff in E. exfalso. apply (Qlt_not_le _ _ H E).
Qed.

Lemma Qltb_false (x y : Q) : Qltb x y = false <-> (y <= x)%Q.
Proof.
  unfold Qltb. rewrite negb_false_iff. apply Qle_bool_iff.
Qed.

Lemma Qeq_bool_false (x y : Q) : Qeq_bool x y = false <-> ~ (x == y)%Q.
Proof.
  split.
  - intros H E. apply Qeq_bool_iff in E. congruence.
  - intros H. destruct (Qeq_bool x y) eqn:E; [|reflexivity].
    apply Qeq_bool_iff in E. contradiction.
Qed.

Lemma finite_inv (x : float) : finite x -> exists q, x = Fin q.
Proof. destruct x; simpl; intros H; try contradiction. now exists q. Qed.

Lemma filter_notna_finite (col : list float) :
  Forall finite col -> filter notna col = col.
Proof.
  induction 1 as [|x l Hx _ IH]; simpl; [reflexivity|].
  destruct x; simpl in *; try contradiction. now rewrite IH.
Qed.

Lemma fold_fmin2_finite (t : list float) :
  Forall finite t ->
  forall a, exists m,
    fold_left fmin2 t (Fin a) = Fin m /\
    In (Fin m) (Fin a :: t) /\
    (m <= a)%Q /\
    (forall q, In (Fin q) t -> (m <= q)%Q).
Proof.
  induction 1 as [|y t Hy _ IH]; intros a.
  - exists a. simpl. repeat split; auto using Qle_refl. intros q [].
  - destruct (finite_inv _ Hy) as [b ->]. simpl fold_left.
    unfold fmin2 at 2. simpl fltb.
    destruct (Qltb b a) eqn:E.
    + apply Qltb_true in E. destruct (IH b) as (m & Hm & Hin & Hb & Hall).
      exists m. repeat split; auto.
      * destruct Hin as [Hin|Hin]; [right; left; exact Hin | right; right; exact Hin].
      * lra.
      * intros q [Hq|Hq]; [injection Hq as <-; exact Hb | now apply Hall].
    + apply Qltb_false in E. destruct (IH a) as (m & Hm & Hin & Ha & Hall).
      exists m. repeat split; auto.
      * destruct Hin as [Hin|Hin]; [now left | right; now right].
      * intros q [Hq|Hq]; [injection Hq as <-; lra | now apply Hall].
Qed.

Lemma fold_fmax2_finite (t : list float) :
  Forall finite t ->
  forall a, exists m,
    fold_left fmax2 t (Fin a) = Fin m /\
    In (Fin m) (Fin a :: t) /\
    (a <= m)%Q /\
    (forall q, In (Fin q) t -> (q <= m)%Q).
Proof.
  induction 1 as [|y t Hy _ IH]; intros a.
  - exists a. simpl. repeat split; auto using Qle_refl. intros q [].
  - destruct (finite_inv _ Hy) as [b ->]. simpl fold_left.
    unfold fmax2 at 2. simpl fltb.
    destruct (Qltb a b) eqn:E.
    + apply Qltb_true in E. destruct (IH b) as (m & Hm & Hin & Hb & Hall).
      exists m. repeat split; auto.
      * destruct Hin as [Hin|Hin];
          [right; left; exact Hin | right; right; exact Hin].
      * lra.
      * intros q [Hq|Hq]; [injection Hq as <-; exact Hb | now apply Hall].
    + apply Qltb_false in E. destruct (IH a) as (m & Hm & Hin & Ha & Hall).
      exists m. repeat split; auto.
      * destruct Hin as [Hin|Hin]; [now left | right; now right].
      * intros q [Hq|Hq]; [injection Hq as <-; lra | now apply Hall].
Qed.

(** On a non-empty column of finite values [Series.min()] is an entry
    of the column that no entry is below. *)
Lemma Series_min_finite (col : list float) :
  Forall finite col -> col <> [] ->
  exists m, Series_min col = Fin m /\ In (Fin m) col /\
            (forall q, In (Fin q) col -> (m <= q)%Q).
Proof.
  intros Hf Hne. unfold Series_min. rewrite (filter_notna_finite Hf).
  destruct col as [|x t]; [congruence|].
  inversion Hf as [|? ? Hx Ht]; subst.
  destruct (finite_inv _ Hx) as [a ->].
  destruct (fold_fmin2_finite Ht a) as (m & Hm & Hin & Ha & Hall).
  exists m. repeat split; auto.
  intros q [Hq|Hq]; [injection Hq as <-; exact Ha | now apply Hall].
Qed.

Lemma Series_max_finite (col : list float) :
  Forall finite col -> col <> [] ->
  exists m, Series_max col = Fin m /\ In (Fin m) col /\
            (forall q, In (Fin q) col -> (q <= m)%Q).
Proof.
  intros Hf Hne. unfold Series_max. rewrite (filter_notna_finite Hf).
  destruct col as [|x t]; [congruence|].
  inversion Hf as [|? ? Hx Ht]; subst.
  destruct (finite_inv _ Hx) as [a ->].
  destruct (fold_fmax2_finite Ht a) as (m & Hm & Hin & Ha & Hall).
  exists m. repeat split; auto.
  intros q [Hq|Hq]; [injection Hq as <-; exact Ha | now apply Hall].
Qed.


Lemma fdiv_finite (a b : Q) :
  ~ (b == 0)%Q -> fdiv (Fin a) (Fin b) = Fin (a / b).
Proof.
  intros H. simpl. apply Qeq_bool_false in H. now rewrite H.
Qed.

Lemma fdiv_zero_zero (a b : Q) :
  (a == 0)%Q -> (b == 0)%Q -> fdiv (Fin a) (Fin b) = NaN.
Proof.
  intros Ha Hb. simpl.
  apply Qeq_bool_iff in Ha. apply Qeq_bool_iff in Hb. now rewrite Hb, Ha.
Qed.

(** Dividing by a zero never gives a finite value. *)
Lemma fdiv_by_zero_not_finite (x : float) (b : Q) :
  (b == 0)%Q -> is_finite (fdiv x (Fin b)) = false.
Proof.
  intros Hb. pose proof Hb as Hb'. apply Qeq_bool_iff in Hb'.
  destruct x as [a| | |]; simpl; try reflexivity.
  - rewrite Hb'. destruct (Qeq_bool a 0); [reflexivity|].
    now destruct (Qltb 0 a).
  - now destruct (Qltb b 0).
  - now destruct (Qltb b 0).
Qed.

Lemma fabs_finite (x : float) : finite x -> finite (fabs x).
Proof. destruct x; simpl; auto. Qed.

(* ================================================================== *)
(** * The scorer on one group *)
(* ================================================================== *)

Lemma In_score_inv (group : list MergedRow) (r : ScoredRow) :
  In r (score group) ->
  In (merged r) group /\
  Normalized_Efficiency_Change r = abs_change (merged r) /\
  Norm_Func r =
    fsub fone
         (fdiv (fsub (Functionality (merged r))
                     (Series_min (map Functionality group)))
               (fsub (Series_max (map Functionality group))
                     (Series_min (map Functionality group)))) /\
  Norm_Eff r =
    fdiv (fsub (abs_change (merged r)) (Series_min (map abs_change group)))
         (fsub (Series_max (map abs_change group))
               (Series_min (map abs_change group))) /\
  Criticality_Score r = fdiv (fadd (Norm_Func r) (Norm_Eff r)) ftwo /\
  Relative_Efficiency_Change r =
    fdiv (Change_in_Efficiency (eff (merged r)))
         (Original_Global_Efficiency (eff (merged r))) /\
  Absolute_Relative_Efficiency_Change r =
    fabs (Relative_Efficiency_Change r).
Proof.
  unfold score. intros H. apply in_map_iff in H.
  destruct H as (m & <- & Hm). simpl. repeat split; auto.
Qed.

Lemma Forall_finite_map (A : Type) (f : A -> float) (l : list A) :
  (forall x, In x l -> finite (f x)) -> Forall finite (map f l).
Proof.
  intros H. apply Forall_forall. intros y Hy.
  apply in_map_iff in Hy. destruct Hy as (x & <- & Hx). auto.
Qed.


Lemma In_abs_change_finite (group : list MergedRow) :
  Forall finite_row group -> Forall finite (map abs_change group).
Proof.
  intros H. apply Forall_finite_map. intros m Hm.
  rewrite Forall_forall in H. apply fabs_finite. now apply H.
Qed.

Lemma In_Functionality_finite (group : list MergedRow) :
  Forall finite_row group -> Forall finite (map Functionality group).
Proof.
  intros H. apply Forall_finite_map. intros m Hm.
  rewrite Forall_forall in H. now apply H.
Qed.


(** A row whose functionality or efficiency change is missing (NaN) has
    no score, whatever the rest of the group holds. *)
Lemma nan_input_nan_score (group : list MergedRow) (r : ScoredRow) :
  In r (score group) ->
  Functionality (merged r) = NaN \/
  Change_in_Efficiency (eff (merged r)) = NaN ->
  Criticality_Score r = NaN.
Proof.
  intros Hr H. apply In_score_inv in Hr.
  destruct Hr as (_ & _ & Enf & Ene & Ecs & _).
  rewrite Ecs. destruct H as [H|H].
  - rewrite Enf, H. reflexivity.
  - rewrite Ene. unfold abs_change. rewrite H.
    change (fdiv (fadd (Norm_Func r) NaN) ftwo = NaN).
    now destruct (Norm_Func r).
Qed.




(** A non-empty column whose entries all equal [v] has minimum and
    maximum equal to [v]. *)
Lemma constant_column_min_max (col : list float) (v : Q) :
  col <> [] -> Forall (fun x => float_eq x (Fin v)) col ->
  exists lo hi, Series_min col = Fin lo /\ Series_max col = Fin hi /\
                (lo == v)%Q /\ (hi == v)%Q.
Proof.
  intros Hne Hall.
  assert (Hf : Forall finite col).
  { eapply Forall_impl; [|exact Hall]. intros [q| | |]; simpl; tauto. }
  destruct (Series_min_finite Hf Hne) as (lo & Elo & Ilo & _).
  destruct (Series_max_finite Hf Hne) as (hi & Ehi & Ihi & _).
  rewrite Forall_forall in Hall.
  exists lo, hi. repeat split; auto.
  - exact (Hall _ Ilo).
  - exact (Hall _ Ihi).
Qed.

Lemma constant_column_scaled_nan (col : list float) (v : Q) (x : float) :
  Forall (fun x => float_eq x (Fin v)) col -> In x col ->
  float_eq (fsub (Series_max col) (Series_min col)) (Fin 0) /\
  fdiv (fsub x (Series_min col)) (fsub (Series_max col) (Series_min col))
    = NaN.
Proof.
  intros Hall Hx.
  assert (Hne : col <> []) by (intros ->; destruct Hx).
  destruct (@constant_column_min_max col v Hne Hall) as (lo & hi & -> & -> & L & H).
  rewrite Forall_forall in Hall. pose proof (Hall _ Hx) as Ex.
  destruct x as [a| | |]; simpl in Ex; try contradiction.
  unfold fsub. simpl fneg. simpl fadd. split.
  - simpl. lra.
  - apply fdiv_zero_zero; lra.
Qed.

Lemma fadd_nan_r (x : float) : fadd x NaN = NaN.
Proof. now destruct x. Qed.

(** C2.  In a non-empty buffer group whose rows all have the same
    functionality value, or all the same absolute efficiency change, the
    denominator max - min of the corresponding min-max normalization is zero;
    the normalization is the unguarded quotient for every row, so it divides
    zero by zero: the normalized metric and the criticality score of every
    row are NaN. *)
Theorem degenerate_group_zero_denominator :
  forall (group : list MergedRow) (v : Q),
    group <> [] ->
    (Forall (fun m => float_eq (Functionality m) (Fin v)) group ->
     float_eq (fsub (Series_max (map Functionality group))
                    (Series_min (map Functionality group))) (Fin 0) /\
     forall r, In r (score group) ->
       Norm_Func r =
         fsub fone
              (fdiv (fsub (Functionality (merged r))
                          (Series_min (map Functionality group)))
                    (fsub (Series_max (map Functionality group))
                          (Series_min (map Functionality group)))) /\
       Norm_Func r = NaN /\ Criticality_Score r = NaN) /\
    (Forall (fun m => float_eq (abs_change m) (Fin v)) group ->
     float_eq (fsub (Series_max (map abs_change group))
                    (Series_min (map abs_change group))) (Fin 0) /\
     forall r, In r (score group) ->
       Norm_Eff r =
         fdiv (fsub (abs_change (merged r))
                    (Series_min (map abs_change group)))
              (fsub (Series_max (map abs_change group))
                    (Series_min (map abs_change group))) /\
       Norm_Eff r = NaN /\ Criticality_Score r = NaN).
Proof.
  intros group v Hne. split; intros Hall.
  - assert (Hcol : Forall (fun x => float_eq x (Fin v))
                          (map Functionality group)).
    { apply Forall_forall. intros x Hx. apply in_map_iff in Hx.
      destruct Hx as (m & <- & Hm). rewrite Forall_forall in Hall. auto. }
    split.
    + destruct group as [|m0 g]; [congruence|].
      apply (@constant_column_scaled_nan _ v _ Hcol
               (in_map _ _ _ (in_eq m0 g))).
    + intros r Hr. apply In_score_inv in Hr.
      destruct Hr as (Hm & _ & Enf & _ & Ecs & _).
      destruct (@constant_column_scaled_nan _ v _ Hcol (in_map _ _ _ Hm))
        as [_ Enan].
      split; [exact Enf|]. rewrite Enan in Enf. simpl in Enf.
      split; [exact Enf|]. rewrite Ecs, Enf. reflexivity.
  - assert (Hcol : Forall (fun x => float_eq x (Fin v))
                          (map abs_change group)).
    { apply Forall_forall. intros x Hx. apply in_map_iff in Hx.
      destruct Hx as (m & <- & Hm). rewrite Forall_forall in Hall. auto. }
    split.
    + destruct group as [|m0 g]; [congruence|].
      apply (@constant_column_scaled_nan _ v _ Hcol
               (in_map _ _ _ (in_eq m0 g))).
    + intros r Hr. apply In_score_inv in Hr.
      destruct Hr as (Hm & _ & _ & Ene & Ecs & _).
      destruct (@constant_column_scaled_nan _ v _ Hcol (in_map _ _ _ Hm))
        as [_ Enan].
      split; [exact Ene|]. rewrite Enan in Ene.
      split; [exact Ene|]. rewrite Ecs, Ene, fadd_nan_r. reflexivity.
Qed.

Lemma degenerate_group_zero_denominator_witness :
  flat_functionality_group <> [] /\
  Forall (fun m => float_eq (Functionality m) (Fin 80))
         flat_functionality_group /\
  float_eq (fsub (Series_max (map Functionality flat_functionality_group))
                 (Series_min (map Functionality flat_functionality_group)))
           (Fin 0) /\
  map Criticality_Score (score flat_functionality_group) = [NaN; NaN].
Proof.
  assert (H1 : flat_functionality_group <> []) by discriminate.
  assert (H2 : Forall (fun m => float_eq (Functionality m) (Fin 80))
                      flat_functionality_group)
    by (repeat constructor).
  split; [exact H1|]. split; [exact H2|]. split.
  - exact (proj1 (proj1 (@degenerate_group_zero_denominator
                         flat_functionality_group 80 H1) H2)).
  - reflexivity.
Defined.

(** C10.  Relative Efficiency Change is the quotient of Change in
    Efficiency by Original Global Efficiency for every joined row, with no
    test of the denominator: whenever the original efficiency of a row is 0
    the result is NaN or an infinity, and such an input exists within the
    data model (original efficiency 0, new efficiency 0). *)
Theorem relative_change_divides_by_zero :
  (forall (group : list MergedRow) (r : ScoredRow),
      In r (score group) ->
      Relative_Efficiency_Change r =
        fdiv (Change_in_Efficiency (eff (merged r)))
             (Original_Global_Efficiency (eff (merged r))) /\
      (float_eq (Original_Global_Efficiency (eff (merged r))) (Fin 0) ->
       is_finite (Relative_Efficiency_Change r) = false)) /\
  (exists r,
      In r (all_scores_df zero_efficiency_df scenario_functionality_df) /\
      Original_Global_Efficiency (eff (merged r)) = Fin 0 /\
      Relative_Efficiency_Change r = NaN /\
      Absolute_Relative_Efficiency_Change r = NaN).
Proof.
  split.
  - intros group r Hr. apply In_score_inv in Hr.
    destruct Hr as (_ & _ & _ & _ & _ & Erel & _).
    split; [exact Erel|]. intros Hz. rewrite Erel.
    destruct (Original_Global_Efficiency (eff (merged r))) as [b| | |];
      simpl in Hz; try contradiction.
    now apply fdiv_by_zero_not_finite.
  - eexists. split; [left; reflexivity|]. repeat split.
Qed.

Lemma relative_change_divides_by_zero_witness :
  Forall (fun r => is_finite (Relative_Efficiency_Change r) = false)
         (score (merged_df zero_efficiency_df scenario_functionality_df 5)).
Proof.
  apply Forall_forall. intros r Hr.
  apply (proj1 relative_change_divides_by_zero _ r Hr).
  destruct Hr as [<-|[]]. simpl. reflexivity.
Defined.

(** C7.  The scenario with B1 (change -0.02) and B2 (change -0.01) at
    buffer 5, original efficiency 0.50 and functionality 80 and 90: the
    scored table has B1 then B2 with normalized efficiency change 0.02 and
    0.01, Norm_Eff 1 and 0, Norm_Func 1 and 0, criticality score 1 and 0. *)
Theorem scenario_two_bridges :
  map row_Bridge_IOP scenario_scores = ["B1"; "B2"]%string /\
  map row_Buffer scenario_scores = [5%Z; 5%Z] /\
  map row_Functionality scenario_scores = [Fin 80; Fin 90] /\
  Forall2 float_eq (map Normalized_Efficiency_Change scenario_scores)
          [Fin 0.02; Fin 0.01] /\
  Forall2 float_eq (map Norm_Eff scenario_scores) [Fin 1; Fin 0] /\
  Forall2 float_eq (map Norm_Func scenario_scores) [Fin 1; Fin 0] /\
  Forall2 float_eq (map Criticality_Score scenario_scores) [Fin 1; Fin 0].
Proof.
  repeat split; vm_compute; repeat constructor.
Qed.

(* ================================================================== *)
(** * Facts about the conversion of strings *)
(* ================================================================== *)

Lemma chars_append (s t : string) :
  chars (s ++ t)%string = chars s ++ chars t.
Proof.
  unfold chars. induction s as [|c s IH]; simpl; [reflexivity|].
  now rewrite IH.
Qed.

Lemma lstrip_In (p : ascii -> bool) (c : ascii) (l : list ascii) :
  In c l -> p c = true \/ In c (lstrip p l).
Proof.
  induction l as [|d t IH]; simpl; [tauto|].
  intros [<-|H].
  - destruct (p d) eqn:E; [now left | right; now left].
  - destruct (p d) eqn:E; [auto | right; now right].
Qed.

Lemma rstrip_In (p : ascii -> bool) (c : ascii) (l : list ascii) :
  In c l -> p c = true \/ In c (rstrip p l).
Proof.
  intros H. unfold rstrip. apply in_rev in H.
  destruct (lstrip_In p c (rev l) H) as [E|E]; [now left|].
  right. now apply in_rev in E.
Qed.

Lemma rstrip_snoc (p : ascii -> bool) (c : ascii) (l : list ascii) :
  p c = true -> rstrip p (l ++ [c]) = rstrip p l.
Proof.
  intros H. unfold rstrip. rewrite rev_app_distr. simpl. now rewrite H.
Qed.

Lemma rstrip_id (p : ascii -> bool) (l : list ascii) :
  (forall c, In c l -> p c = false) -> rstrip p l = l.
Proof.
  intros H. unfold rstrip.
  assert (E : lstrip p (rev l) = rev l).
  { destruct (rev l) as [|d t] eqn:R; simpl; [reflexivity|].
    rewrite (H d); [reflexivity|]. apply in_rev. rewrite R. now left. }
  rewrite E. apply rev_involutive.
Qed.

Lemma span_spec (p : ascii -> bool) (l a b : list ascii) :
  span p l = (a, b) -> l = a ++ b /\ (forall c, In c a -> p c = true).
Proof.
  revert a b. induction l as [|d t IH]; simpl; intros a b H.
  - injection H as <- <-. split; [reflexivity | intros c []].
  - destruct (p d) eqn:E.
    + destruct (span p t) as [a' b'] eqn:S. injection H as <- <-.
      destruct (IH _ _ eq_refl) as [-> Hall]. split; [reflexivity|].
      intros c [<-|Hc]; auto.
    + injection H as <- <-. split; [reflexivity | intros c []].
Qed.

Lemma drop_underscores_In (c : ascii) (l : list ascii) :
  forall prev l', drop_underscores prev l = Some l' ->
    In c l -> c = "_"%char \/ In c l'.
Proof.
  induction l as [|d t IH]; intros prev l' H Hc; [destruct Hc|].
  simpl in H. destruct (Ascii.eqb d "_") eqn:E.
  - apply Ascii.eqb_eq in E. subst d.
    destruct prev as [q|]; [|discriminate].
    destruct (is_digit q); [|discriminate].
    destruct Hc as [<-|Hc]; [now left | eauto].
  - destruct (_ && _); [discriminate|].
    destruct (drop_underscores (Some d) t) as [u|] eqn:D; [|discriminate].
    simpl in H. injection H as <-.
    destruct Hc as [<-|Hc]; [right; now left|].
    destruct (IH _ _ D Hc) as [?|?]; [now left | right; now right].
Qed.

Lemma split_sign_In (c : ascii) (l t : list ascii) (neg : bool) :
  split_sign l = (neg, t) -> In c l ->
  c = "-"%char \/ c = "+"%char \/ In c t.
Proof.
  destruct l as [|d u]; simpl; intros H Hc; [destruct Hc|].
  destruct (Ascii.eqb d "-") eqn:E1.
  - apply Ascii.eqb_eq in E1. injection H as <- <-.
    destruct Hc as [<-|Hc]; auto.
  - destruct (Ascii.eqb d "+") eqn:E2.
    + apply Ascii.eqb_eq in E2. injection H as <- <-.
      destruct Hc as [<-|Hc]; auto.
    + injection H as <- <-. auto.
Qed.

Lemma numeric_char_space (c : ascii) : is_space c = true -> numeric_char c = true.
Proof. intros H. unfold numeric_char. now rewrite H. Qed.

Lemma numeric_char_digit (c : ascii) : is_digit c = true -> numeric_char c = true.
Proof. intros H. unfold numeric_char. rewrite H. now rewrite orb_true_r. Qed.

Lemma numeric_char_lower (c : ascii) :
  In (lower c) (chars "+-._einfatyn") -> numeric_char c = true.
Proof.
  intros H. unfold numeric_char. apply orb_true_iff. right.
  apply existsb_exists. exists (lower c). split; [exact H|].
  apply Ascii.eqb_refl.
Qed.

Lemma numeric_char_eq (c d : ascii) :
  c = d -> In (lower d) (chars "+-._einfatyn") -> numeric_char c = true.
Proof. intros ->. apply numeric_char_lower. Qed.

Lemma numeric_char_word (w l : list ascii) (c : ascii) :
  map lower l = w -> incl w (chars "+-._einfatyn") ->
  In c l -> numeric_char c = true.
Proof.
  intros E Hw Hc. apply numeric_char_lower. apply Hw. rewrite <- E.
  now apply in_map.
Qed.

Lemma parse_exponent_chars (l : list ascii) (e : Z) (c : ascii) :
  parse_exponent l = Some e -> In c l -> numeric_char c = true.
Proof.
  destruct l as [|d t]; simpl; intros H Hc; [destruct Hc|].
  destruct (Ascii.eqb (lower d) "e") eqn:E; [|discriminate].
  apply Ascii.eqb_eq in E.
  destruct (split_sign t) as [neg u] eqn:S.
  destruct (span is_digit u) as [ds r] eqn:P.
  destruct ds as [|d0 ds]; [discriminate|].
  destruct r; [|discriminate].
  destruct (span_spec _ _ P) as [-> Hds]. rewrite app_nil_r in S.
  destruct Hc as [<-|Hc].
  - apply numeric_char_lower. rewrite E. simpl. tauto.
  - destruct (split_sign_In c _ S Hc) as [->|[->|Hd]].
    + reflexivity.
    + reflexivity.
    + apply numeric_char_digit. auto.
Qed.

Lemma split_fraction_spec (l fp r : list ascii) :
  split_fraction l = (fp, r) ->
  (forall c, In c fp -> is_digit c = true) /\
  (l = fp ++ r \/ l = "."%char :: fp ++ r).
Proof.
  destruct l as [|d t]; simpl; intros H.
  - injection H as <- <-. split; [intros c []| now left].
  - destruct (Ascii.eqb d ".") eqn:E.
    + apply Ascii.eqb_eq in E. subst d.
      destruct (span_spec _ _ H) as [-> Hfp]. split; [exact Hfp | now right].
    + injection H as <- <-. split; [intros c []| now left].
Qed.

Lemma parse_decimal_chars (l : list ascii) (q : Q) (c : ascii) :
  parse_decimal l = Some q -> In c l -> numeric_char c = true.
Proof.
  unfold parse_decimal. intros H Hc.
  destruct (span is_digit l) as [ip r1] eqn:P.
  destruct (split_fraction r1) as [fp r2] eqn:F.
  destruct (ip ++ fp); [discriminate|].
  destruct (parse_exponent r2) as [e|] eqn:X; [|discriminate].
  destruct (span_spec _ _ P) as [-> Hip].
  destruct (split_fraction_spec _ F) as [Hfp Hr1].
  apply in_app_or in Hc. destruct Hc as [Hc|Hc].
  - apply numeric_char_digit. auto.
  - assert (Hc' : c = "."%char \/ In c fp \/ In c r2).
    { destruct Hr1 as [->| ->].
      - apply in_app_or in Hc. tauto.
      - destruct Hc as [<-|Hc]; [now left|].
        apply in_app_or in Hc. tauto. }
    destruct Hc' as [->|[Hc'|Hc']].
    + reflexivity.
    + apply numeric_char_digit. auto.
    + eapply parse_exponent_chars; eauto.
Qed.

Lemma parse_unsigned_chars (l : list ascii) (x : float) (c : ascii) :
  parse_unsigned l = Some x -> In c l -> numeric_char c = true.
Proof.
  unfold parse_unsigned. intros H Hc.
  destruct (list_eq_dec ascii_dec (map lower l) (chars "inf")) as [E|_].
  { apply (@numeric_char_word _ l c E); [|exact Hc].
    intros a Ha. simpl in Ha |- *. tauto. }
  destruct (list_eq_dec ascii_dec (map lower l) (chars "infinity")) as [E|_].
  { apply (@numeric_char_word _ l c E); [|exact Hc].
    intros a Ha. simpl in Ha |- *. tauto. }
  destruct (list_eq_dec ascii_dec (map lower l) (chars "nan")) as [E|_].
  { apply (@numeric_char_word _ l c E); [|exact Hc].
    intros a Ha. simpl in Ha |- *. tauto. }
  destruct (parse_decimal l) as [q|] eqn:D; [|discriminate].
  eapply parse_decimal_chars; eauto.
Qed.

(** A string that [float] accepts consists of numeric characters only. *)
Lemma float_of_chars_numeric (l : list ascii) (x : float) :
  float_of_chars l = Some x -> forall c, In c l -> numeric_char c = true.
Proof.
  unfold float_of_chars. intros H c Hc.
  destruct (drop_underscores None (rstrip is_space (lstrip is_space l)))
    as [body|] eqn:D; [|discriminate].
  destruct (split_sign body) as [neg t] eqn:S.
  assert (P : exists y, parse_unsigned t = Some y).
  { destruct neg; [|eauto].
    destruct (parse_unsigned t) as [y|]; [eauto | discriminate]. }
  destruct P as [y P].
  destruct (lstrip_In is_space c l Hc) as [Hs|Hc1];
    [now apply numeric_char_space|].
  destruct (rstrip_In is_space c _ Hc1) as [Hs|Hc2];
    [now apply numeric_char_space|].
  destruct (drop_underscores_In c _ _ D Hc2) as [->|Hc3]; [reflexivity|].
  destruct (split_sign_In c _ S Hc3) as [->|[->|Hc4]];
    [reflexivity | reflexivity |].
  eapply parse_unsigned_chars; eauto.
Qed.

(** [rstrip('%')] leaves a numeric string as it is. *)
Lemma rstrip_percent_numeric (l : list ascii) (x : float) :
  float_of_chars l = Some x -> rstrip is_percent l = l.
Proof.
  intros H. apply rstrip_id. intros c Hc.
  pose proof (float_of_chars_numeric _ H c Hc) as N.
  unfold is_percent. destruct (Ascii.eqb c "%") eqn:E; [|reflexivity].
  apply Ascii.eqb_eq in E. subst c. discriminate N.
Qed.

Lemma clean_functionality_append_percent (s : string) (x : float) :
  float_of_string s = Some x ->
  clean_functionality (s ++ "%") = Some x.
Proof.
  unfold float_of_string, clean_functionality. intros H.
  rewrite chars_append. change (chars "%") with ["%"%char].
  rewrite rstrip_snoc by reflexivity.
  now rewrite (rstrip_percent_numeric _ H).
Qed.

Lemma astype_float_None (col : list (list ascii)) :
  astype_float col = None <->
  exists s, In s col /\ float_of_chars s = None.
Proof.
  induction col as [|s t IH]; simpl.
  - split; [discriminate | intros (s & [] & _)].
  - destruct (float_of_chars s) as [x|] eqn:E.
    + destruct (astype_float t) as [xs|].
      * split; [discriminate|]. intros (u & [<-|Hu] & Eu); [congruence|].
        destruct IH as [_ IH]. discriminate IH. eauto.
      * split; [|reflexivity]. intros _.
        destruct IH as [IH _]. destruct (IH eq_refl) as (u & Hu & Eu).
        exists u. auto.
    + split; [|reflexivity]. intros _. exists s. auto.
Qed.

Lemma astype_float_Some (col : list (list ascii)) (xs : list float) :
  Forall2 (fun s x => float_of_chars s = Some x) col xs ->
  astype_float col = Some xs.
Proof.
  induction 1 as [|s x col xs H _ IH]; simpl; [reflexivity|].
  now rewrite H, IH.
Qed.

(** C5.  A numeric string followed by a percent sign is converted to the
    number the string denotes: the percent sign is stripped and the rest is
    parsed as a float.  This holds cell by cell and for a whole column (with
    the key column renamed); "93.4%" gives 93.4, "80%" gives 80, and the
    table with B1 at "80%" and B2 at "90%" gives 80 for B1. *)
Theorem clean_functionality_percent :
  (forall (s : string) (x : float),
      float_of_string s = Some x ->
      clean_functionality (s ++ "%") = Some x) /\
  (forall (df : list RawFunctionalityRow) (col : list float),
      Forall2 (fun row x =>
                 exists s, Functionality_str row = (s ++ "%")%string /\
                           float_of_string s = Some x) df col ->
      normalize df = Some (normalized_rows df col)) /\
  clean_functionality "93.4%" = Some (Fin 93.4) /\
  clean_functionality "80%" = Some (Fin 80) /\
  normalize scenario_raw_functionality_df = Some scenario_functionality_df.
Proof.
  split; [exact clean_functionality_append_percent|].
  split; [|repeat split].
  intros df col H. unfold normalize, normalized_rows.
  rewrite (@astype_float_Some _ col); [reflexivity|].
  unfold str_rstrip_percent. induction H as [|row x df col Hx _ IH]; simpl.
  - constructor.
  - constructor; [|exact IH].
    destruct Hx as (s & -> & Hs).
    exact (clean_functionality_append_percent _ Hs).
Qed.

Lemma clean_functionality_percent_witness :
  float_of_string "93.4" = Some (Fin 93.4) /\
  clean_functionality ("93.4" ++ "%") = Some (Fin 93.4).
Proof.
  assert (H : float_of_string "93.4" = Some (Fin 93.4)) by reflexivity.
  split; [exact H|].
  exact (proj1 clean_functionality_percent "93.4"%string (Fin 93.4) H).
Defined.

(** The conversion of a text column succeeds exactly when every cell
    converts; it fails exactly when the remainder of some text is not a
    number. *)
Lemma clean_cells_Some (cells : list Cell) (values : list float) :
  clean_cells cells = Some values <->
  Forall2 (fun c v => clean_cell c = Some v) cells values.
Proof.
  revert values. induction cells as [|c t IH]; intros values; simpl.
  - split.
    + intros E. injection E as <-. constructor.
    + intros H. inversion H. reflexivity.
  - split.
    + destruct (clean_cell c) as [x|] eqn:Ec; [|discriminate].
      destruct (clean_cells t) as [xs|] eqn:Et; [|discriminate].
      intros E. injection E as <-. constructor; [exact Ec|].
      now apply IH.
    + intros H. inversion H as [|? v ? vs Hc Ht]; subst.
      apply IH in Ht. now rewrite Hc, Ht.
Qed.

Lemma clean_cells_None (cells : list Cell) :
  clean_cells cells = None <->
  exists s, In (Str s) cells /\ clean_functionality s = None.
Proof.
  induction cells as [|c t IH]; simpl.
  - split; [discriminate | intros (s & [] & _)].
  - split.
    + destruct (clean_cell c) as [x|] eqn:Ec.
      * destruct (clean_cells t) as [xs|] eqn:Et; [discriminate|].
        intros _. destruct (proj1 IH eq_refl) as (s & Hs & Es).
        exists s. auto.
      * intros _. destruct c as [s|]; [|discriminate Ec].
        exists s. auto.
    + intros (s & [E|Hs] & Es).
      * subst c. simpl. now rewrite Es.
      * assert (N : clean_cells t = None) by (apply IH; eauto).
        rewrite N. now destruct (clean_cell c).
Qed.

(** A text that does not end with a percent sign is left as it is. *)
Lemma rstrip_no_percent (l : list ascii) :
  ends_with_percent l = false -> rstrip is_percent l = l.
Proof.
  unfold ends_with_percent, rstrip. intros H.
  destruct (rev l) as [|d t] eqn:R; simpl.
  - now rewrite <- (rev_involutive l), R.
  - rewrite H. now rewrite <- (rev_involutive l), R.
Qed.

(** C4, as stated, fails: in a column loaded as text, the value "93.4"
    has no percent sign, yet the Normalizer does not fail; it converts the
    value to 93.4. *)
Lemma unsuffixed_number_in_text_column :
  ends_with_percent (chars "93.4") = false /\
  clean_column (ObjectColumn [Str "80%"; Str "93.4"])
    = Ok [Fin 80; Fin 93.4] /\
  preprocess mixed_loaded_df =
    Ok [ {| func_Bridge_IOP := "B1"; func_Functionality := Fin 80 |};
         {| func_Bridge_IOP := "B2"; func_Functionality := Fin 93.4 |} ].
Proof. repeat split. Qed.

(** C4, amended.  For every value of a text column whose remainder
    after stripping the trailing percent signs is not numeric, the
    Normalizer fails with a format error ([ValueError]).  A value that lacks
    the percent sign does not make it fail by itself: when the remainder of
    every text of the column is numeric, the column is converted, a text
    without percent sign to the number it denotes and an empty cell to NaN.
    The Normalizer fails for want of percent signs only when the column was
    loaded as numbers, no cell being a text: then the accessor [.str] raises
    [AttributeError]. *)
Theorem preprocess_fails_on_non_numeric :
  forall df : LoadedFunctionality,
    (forall cells s,
        loaded_Functionality df = ObjectColumn cells ->
        In (Str s) cells ->
        float_of_chars (rstrip is_percent (chars s)) = None ->
        preprocess df = Raise ValueError) /\
    (forall cells,
        loaded_Functionality df = ObjectColumn cells ->
        (forall s, In (Str s) cells ->
                   float_of_chars (rstrip is_percent (chars s)) <> None) ->
        exists values,
          Forall2 (fun c v =>
                     match c with
                     | Str s =>
                         float_of_chars (rstrip is_percent (chars s))
                           = Some v /\
                         (ends_with_percent (chars s) = false ->
                          float_of_string s = Some v)
                     | Missing => v = NaN
                     end) cells values /\
          preprocess df =
            Ok (map (fun p => {| func_Bridge_IOP := fst p;
                                 func_Functionality := snd p |})
                    (combine (loaded_IOP df) values))) /\
    (forall values,
        loaded_Functionality df = FloatColumn values ->
        preprocess df = Raise AttributeError).
Proof.
  intros df. unfold preprocess, clean_column. split; [|split].
  - intros cells s -> Hs Es.
    assert (N : clean_cells cells = None)
      by (apply clean_cells_None; exists s; auto).
    now rewrite N.
  - intros cells -> Hall.
    destruct (clean_cells cells) as [values|] eqn:E.
    + exists values. split; [|reflexivity].
      apply clean_cells_Some in E.
      clear Hall. induction E as [|c v cells values Hc _ IH];
        constructor; [|exact IH].
      destruct c as [s|]; simpl in Hc.
      * split; [exact Hc|]. intros Hp.
        unfold clean_functionality in Hc.
        now rewrite (rstrip_no_percent _ Hp) in Hc.
      * now injection Hc as <-.
    + exfalso. apply clean_cells_None in E.
      destruct E as (s & Hs & Es). exact (Hall s Hs Es).
  - intros values ->. reflexivity.
Qed.

Lemma preprocess_fails_on_non_numeric_witness :
  In (Str "n.a.%") [Str "80%"; Str "n.a.%"] /\
  float_of_chars (rstrip is_percent (chars "n.a.%")) = None /\
  preprocess broken_loaded_df = Raise ValueError.
Proof.
  assert (H1 : In (Str "n.a.%") [Str "80%"; Str "n.a.%"])
    by (right; left; reflexivity).
  assert (H2 : float_of_chars (rstrip is_percent (chars "n.a.%")) = None)
    by reflexivity.
  split; [exact H1|]. split; [exact H2|].
  exact (proj1 (preprocess_fails_on_non_numeric broken_loaded_df)
           [Str "80%"; Str "n.a.%"] "n.a.%"%string eq_refl H1 H2).
Defined.

(* ================================================================== *)
(** * Facts about sorting and [unique] *)
(* ================================================================== *)

Section Insertion.

Variable A : Type.
Variable before goes_first : A -> A -> bool.

Hypothesis goes_first_sound : forall x y, goes_first x y = true -> before x y = true.
Hypothesis goes_first_complete :
  forall x y, goes_first x y = false -> before y x = true.
Hypothesis before_trans : transitive before.

Lemma insert_before_perm (x : A) (l : list A) :
  Permutation (insert_before goes_first x l) (x :: l).
Proof.
  induction l as [|y t IH]; simpl; [reflexivity|].
  destruct (goes_first x y); [reflexivity|].
  rewrite IH. apply perm_swap.
Qed.

Lemma stable_sort_perm (l : list A) : Permutation (stable_sort goes_first l) l.
Proof.
  induction l as [|x t IH]; simpl; [constructor|].
  rewrite insert_before_perm. now constructor.
Qed.

Lemma insert_before_sorted (x : A) (l : list A) :
  StronglySorted (fun x y => before x y = true) l ->
  StronglySorted (fun x y => before x y = true)
                 (insert_before goes_first x l).
Proof.
  induction 1 as [|y t Hs IH Hy]; simpl.
  - repeat constructor.
  - destruct (goes_first x y) eqn:E.
    + constructor; [now constructor|].
      constructor; [now apply goes_first_sound|].
      eapply Forall_impl; [|exact Hy]. intros z Hz.
      eapply before_trans; [apply goes_first_sound; exact E | exact Hz].
    + constructor; [exact IH|].
      rewrite Forall_forall in Hy |- *. intros z Hz.
      apply (Permutation_in _ (insert_before_perm x t)) in Hz.
      destruct Hz as [<-|Hz]; [now apply goes_first_complete | now apply Hy].
Qed.

Lemma stable_sort_sorted (l : list A) :
  StronglySorted (fun x y => before x y = true) (stable_sort goes_first l).
Proof.
  induction l as [|x t IH]; simpl; [constructor|].
  now apply insert_before_sorted.
Qed.

End Insertion.

Lemma stable_sort_algorithm_contract : sort_contract stable_sort_algorithm.
Proof.
  split.
  - intros A before l. apply stable_sort_perm.
  - intros A before Htot Htr l. apply stable_sort_sorted; auto.
    intros x y H. destruct (Htot x y) as [E|E]; congruence.
Qed.

Lemma tie_reversing_sort_contract : sort_contract tie_reversing_sort.
Proof.
  split.
  - intros A before l. apply stable_sort_perm.
  - intros A before Htot Htr l. apply stable_sort_sorted; auto.
    + intros x y H. apply negb_true_iff in H.
      destruct (Htot x y) as [E|E]; congruence.
    + intros x y H. now apply negb_false_iff in H.
Qed.

Lemma Zleb_total : total Z.leb.
Proof.
  intros x y. destruct (Z.leb_spec x y); [now left|].
  right. apply Z.leb_le. lia.
Qed.

Lemma Zleb_transitive : transitive Z.leb.
Proof.
  intros x y z H1 H2. apply Z.leb_le in H1, H2. apply Z.leb_le. lia.
Qed.

Lemma sorted_perm (l : list Z) : Permutation (sorted l) l.
Proof. apply stable_sort_perm. Qed.

Lemma sorted_ascending (l : list Z) : StronglySorted Z.le (sorted l).
Proof.
  pose proof (proj2 stable_sort_algorithm_contract Z Z.leb
                Zleb_total Zleb_transitive l) as H.
  unfold sorted. unfold stable_sort_algorithm in H.
  induction H as [|x t _ IH Hx]; constructor; auto.
  eapply Forall_impl; [|exact Hx]. intros y. apply Z.leb_le.
Qed.

Section Unique.

Variable A : Type.
Variable eqb : A -> A -> bool.
Hypothesis eqb_eq : forall x y, eqb x y = true <-> x = y.

Lemma unique_In (x : A) (l : list A) : In x (unique eqb l) <-> In x l.
Proof.
  induction l as [|y t IH]; simpl; [tauto|].
  rewrite filter_In, IH, negb_true_iff. split.
  - intros [H|[H _]]; auto.
  - intros [H|H]; [now left|].
    destruct (eqb x y) eqn:E.
    + apply eqb_eq in E. now left.
    + right. auto.
Qed.

Lemma unique_NoDup (l : list A) : NoDup (unique eqb l).
Proof.
  induction l as [|y t IH]; simpl; constructor.
  - rewrite filter_In, negb_true_iff. intros [_ H].
    rewrite (proj2 (eqb_eq y y) eq_refl) in H. discriminate.
  - now apply NoDup_filter.
Qed.

End Unique.

Lemma sorted_distinct_increasing (l : list Z) :
  StronglySorted Z.le l -> NoDup l -> StronglySorted Z.lt l.
Proof.
  induction 1 as [|x t Hs IH Hx]; intros Hnd; constructor.
  - apply IH. now inversion Hnd.
  - inversion Hnd as [|? ? Hnot _]; subst.
    rewrite Forall_forall in Hx |- *. intros y Hy.
    pose proof (Hx _ Hy). assert (x <> y) by (intros ->; contradiction).
    lia.
Qed.

(** The buffer distances iterated over: the values of the buffer column,
    each once, in increasing order. *)
Lemma buffer_distances_spec (efficiency_df : list EfficiencyRow) :
  StronglySorted Z.lt (buffer_distances efficiency_df) /\
  NoDup (buffer_distances efficiency_df) /\
  (forall b, In b (buffer_distances efficiency_df) <->
             In b (map Buffer_Distance_km efficiency_df)).
Proof.
  unfold buffer_distances.
  set (u := unique Z.eqb (map Buffer_Distance_km efficiency_df)).
  assert (Hnd : NoDup (sorted u)).
  { apply (Permutation_NoDup (Permutation_sym (sorted_perm u))).
    apply unique_NoDup. apply Z.eqb_eq. }
  split; [|split].
  - apply sorted_distinct_increasing; [apply sorted_ascending | exact Hnd].
  - exact Hnd.
  - intros b. split; intros H.
    + apply (Permutation_in _ (sorted_perm u)) in H.
      exact (proj1 (@unique_In Z Z.eqb Z.eqb_eq b _) H).
    + apply (Permutation_in _ (Permutation_sym (sorted_perm u))).
      exact (proj2 (@unique_In Z Z.eqb Z.eqb_eq b _) H).
Qed.

(* ================================================================== *)
(** * Facts about the inner join *)
(* ================================================================== *)

Lemma In_merge (left : list EfficiencyRow) (right : list FunctionalityRow)
  (m : MergedRow) :
  In m (merge left right) <->
  In (eff m) left /\
  exists r, In r right /\
            Bridge_IOP (eff m) = func_Bridge_IOP r /\
            Functionality m = func_Functionality r.
Proof.
  unfold merge. rewrite in_flat_map. split.
  - intros (l & Hl & Hm). apply in_map_iff in Hm.
    destruct Hm as (r & <- & Hr). apply filter_In in Hr.
    destruct Hr as [Hr E]. apply String.eqb_eq in E. simpl. eauto.
  - intros (Hl & r & Hr & Ek & Ef). exists (eff m). split; [exact Hl|].
    apply in_map_iff. exists r. split.
    + destruct m as [e f]. simpl in *. now rewrite Ef.
    + apply filter_In. split; [exact Hr|]. now apply String.eqb_eq.
Qed.



Lemma filter_absent_key (right : list FunctionalityRow) (k : string) :
  ~ In k (map func_Bridge_IOP right) ->
  filter (fun r => String.eqb k (func_Bridge_IOP r)) right = [].
Proof.
  induction right as [|r t IH]; simpl; intros H; [reflexivity|].
  destruct (String.eqb k (func_Bridge_IOP r)) eqn:E.
  - apply String.eqb_eq in E. exfalso. apply H. left. now symmetry.
  - apply IH. intros Hin. apply H. now right.
Qed.

(** With unique bridges on the right, a left row is joined with one row
    if it has a partner and with none otherwise. *)
Lemma partners_of_row (right : list FunctionalityRow) (l : EfficiencyRow) :
  NoDup (map func_Bridge_IOP right) ->
  map eff
      (map (fun r => {| eff := l; Functionality := func_Functionality r |})
           (filter (fun r => String.eqb (Bridge_IOP l) (func_Bridge_IOP r))
                   right))
  = if has_partner right l then [l] else [].
Proof.
  unfold has_partner. induction right as [|r t IH]; simpl; intros Hnd;
    [reflexivity|].
  inversion Hnd as [|? ? Hnot Hnd']; subst.
  destruct (String.eqb (Bridge_IOP l) (func_Bridge_IOP r)) eqn:E; simpl.
  - apply String.eqb_eq in E. rewrite filter_absent_key; [reflexivity|].
    now rewrite E.
  - now apply IH.
Qed.

Lemma map_eff_merge (left : list EfficiencyRow)
  (right : list FunctionalityRow) :
  NoDup (map func_Bridge_IOP right) ->
  map eff (merge left right) = filter (has_partner right) left.
Proof.
  intros Hnd. unfold merge. induction left as [|l t IH]; simpl;
    [reflexivity|].
  rewrite map_app, IH, (@partners_of_row right l Hnd).
  now destruct (has_partner right l).
Qed.

Lemma NoDup_map_filter (A B : Type) (key : A -> B) (keep : A -> bool)
  (rows : list A) :
  NoDup (map key rows) -> NoDup (map key (filter keep rows)).
Proof.
  induction rows as [|x t IH]; simpl; intros H; [constructor|].
  inversion H as [|? ? Hnot Hnd]; subst.
  destruct (keep x); simpl; [|auto].
  constructor; [|auto]. intros Hin. apply Hnot.
  apply in_map_iff in Hin. destruct Hin as (y & E & Hy).
  apply filter_In in Hy. apply in_map_iff. exists y. tauto.
Qed.

Lemma has_partner_true (right : list FunctionalityRow) (e : EfficiencyRow) :
  has_partner right e = true -> In (Bridge_IOP e) (map func_Bridge_IOP right).
Proof.
  unfold has_partner. intros H. apply existsb_exists in H.
  destruct H as (r & Hr & E). apply String.eqb_eq in E.
  rewrite E. now apply in_map.
Qed.

Lemma merge_length_left (left : list EfficiencyRow)
  (right : list FunctionalityRow) :
  NoDup (map func_Bridge_IOP right) ->
  length (merge left right) <= length left.
Proof.
  intros Hnd. rewrite <- (length_map eff), (@map_eff_merge left right Hnd).
  apply filter_length_le.
Qed.

Lemma merge_length_right (left : list EfficiencyRow)
  (right : list FunctionalityRow) :
  NoDup (map func_Bridge_IOP right) ->
  NoDup (map Bridge_IOP left) ->
  length (merge left right) <= length right.
Proof.
  intros Hr Hl.
  rewrite <- (length_map eff), (@map_eff_merge left right Hr).
  rewrite <- (length_map Bridge_IOP), <- (length_map func_Bridge_IOP right).
  apply NoDup_incl_length; [now apply NoDup_map_filter|].
  intros k Hk. apply in_map_iff in Hk. destruct Hk as (e & <- & He).
  apply filter_In in He. now apply has_partner_true.
Qed.

(** C6, as stated, fails: with a single bridge B1 in the functionality
    table (so bridges are unique there) and two efficiency rows of B1 at
    buffer 5, the join has 2 rows while the smaller table has 1. *)
Lemma duplicate_bridge_rows_exceed_bound :
  NoDup (map func_Bridge_IOP single_functionality_df) /\
  length (merged_df doubled_efficiency_df single_functionality_df 5) = 2 /\
  Nat.min (length single_functionality_df)
          (length (buffer_rows doubled_efficiency_df 5)) = 1 /\
  ~ length (merged_df doubled_efficiency_df single_functionality_df 5)
      <= Nat.min (length single_functionality_df)
                 (length (buffer_rows doubled_efficiency_df 5)).
Proof.
  split; [repeat constructor; simpl; tauto|].
  split; [reflexivity|]. split; [reflexivity|].
  simpl. lia.
Qed.

(** C6, amended.  Every row of the table joined for buffer [b] pairs an
    efficiency row of buffer [b] with a functionality row of the same bridge,
    and every such pair gives a row, so a bridge that is missing on either
    side gives none.  If bridges are unique in the functionality table the
    join has at most as many rows as there are efficiency rows for [b]; if in
    addition no bridge has two efficiency rows for [b], it has at most
    min(|functionality rows|, |efficiency rows for b|) rows. *)
Theorem merged_df_inner_join :
  forall (efficiency_df : list EfficiencyRow)
         (functionality_df : list FunctionalityRow) (b : Z),
    (forall m, In m (merged_df efficiency_df functionality_df b) <->
       (In (eff m) efficiency_df /\ Buffer_Distance_km (eff m) = b) /\
       exists f, In f functionality_df /\
                 Bridge_IOP (eff m) = func_Bridge_IOP f /\
                 Functionality m = func_Functionality f) /\
    (forall bridge,
       ~ In bridge (map func_Bridge_IOP functionality_df) \/
       ~ In bridge (map Bridge_IOP (buffer_rows efficiency_df b)) ->
       forall m, In m (merged_df efficiency_df functionality_df b) ->
                 Bridge_IOP (eff m) <> bridge) /\
    (NoDup (map func_Bridge_IOP functionality_df) ->
     length (merged_df efficiency_df functionality_df b)
       <= length (buffer_rows efficiency_df b)) /\
    (NoDup (map func_Bridge_IOP functionality_df) ->
     NoDup (map Bridge_IOP (buffer_rows efficiency_df b)) ->
     length (merged_df efficiency_df functionality_df b)
       <= Nat.min (length functionality_df)
                  (length (buffer_rows efficiency_df b))).
Proof.
  intros E F b.
  assert (Hin : forall m, In m (merged_df E F b) <->
            (In (eff m) E /\ Buffer_Distance_km (eff m) = b) /\
            exists f, In f F /\ Bridge_IOP (eff m) = func_Bridge_IOP f /\
                      Functionality m = func_Functionality f).
  { intros m. unfold merged_df, buffer_rows.
    rewrite In_merge, filter_In, Z.eqb_eq. tauto. }
  split; [exact Hin|]. split; [|split].
  - intros bridge Habs m Hm <-. apply Hin in Hm.
    destruct Hm as ((He & Hb) & f & Hf & Ek & _).
    destruct Habs as [Habs|Habs]; apply Habs.
    + rewrite Ek. now apply in_map.
    + apply in_map. unfold buffer_rows. apply filter_In.
      split; [exact He|]. now apply Z.eqb_eq.
  - intros Hnd. now apply merge_length_left.
  - intros HF HE. apply Nat.min_glb.
    + now apply merge_length_right.
    + now apply merge_length_left.
Qed.

Lemma merged_df_inner_join_witness :
  NoDup (map func_Bridge_IOP scenario_functionality_df) /\
  NoDup (map Bridge_IOP (buffer_rows scenario_efficiency_df 5)) /\
  length (merged_df scenario_efficiency_df scenario_functionality_df 5)
    <= Nat.min (length scenario_functionality_df)
               (length (buffer_rows scenario_efficiency_df 5)).
Proof.
  assert (H1 : NoDup (map func_Bridge_IOP scenario_functionality_df)).
  { repeat constructor; simpl; intuition discriminate. }
  assert (H2 : NoDup (map Bridge_IOP (buffer_rows scenario_efficiency_df 5))).
  { repeat constructor; simpl; intuition discriminate. }
  split; [exact H1|]. split; [exact H2|].
  exact (proj2 (proj2 (proj2 (merged_df_inner_join
                                scenario_efficiency_df
                                scenario_functionality_df 5))) H1 H2).
Defined.

(* ================================================================== *)
(** * Facts about the comprehensive table *)
(* ================================================================== *)


Lemma set_buffer_same (r : ScoredRow) : set_buffer (row_Buffer r) r = r.
Proof. destruct r as [[[? ? ? ? ? ? ?] ?] ? ? ? ? ? ?]. reflexivity. Qed.

Lemma row_Buffer_set_buffer (b : Z) (r : ScoredRow) :
  row_Buffer (set_buffer b r) = b.
Proof. reflexivity. Qed.

Lemma In_merged_df_buffer (efficiency_df : list EfficiencyRow)
  (functionality_df : list FunctionalityRow) (b : Z) (m : MergedRow) :
  In m (merged_df efficiency_df functionality_df b) ->
  Buffer_Distance_km (eff m) = b.
Proof.
  unfold merged_df, buffer_rows. rewrite In_merge, filter_In, Z.eqb_eq.
  tauto.
Qed.

(** Writing the buffer distance into the column changes nothing: the
    rows of the group carry it already. *)
Lemma process_buffer_score (efficiency_df : list EfficiencyRow)
  (functionality_df : list FunctionalityRow) (b : Z) :
  process_buffer efficiency_df functionality_df b =
  score (merged_df efficiency_df functionality_df b).
Proof.
  unfold process_buffer. rewrite <- (map_id (score _)) at 2.
  apply map_ext_in. intros r Hr.
  apply In_score_inv in Hr. destruct Hr as [Hm _].
  apply In_merged_df_buffer in Hm.
  rewrite <- Hm. apply set_buffer_same.
Qed.

Lemma all_scores_df_flat_map (efficiency_df : list EfficiencyRow)
  (functionality_df : list FunctionalityRow) :
  all_scores_df efficiency_df functionality_df =
  flat_map (fun b => score (merged_df efficiency_df functionality_df b))
           (buffer_distances efficiency_df).
Proof.
  unfold all_scores_df, all_criticality_scores.
  rewrite <- flat_map_concat_map. apply flat_map_ext.
  intros b. apply process_buffer_score.
Qed.





Lemma filter_all (A : Type) (p : A -> bool) (l : list A) :
  (forall x, In x l -> p x = true) -> filter p l = l.
Proof.
  induction l as [|x t IH]; simpl; intros H; [reflexivity|].
  rewrite (H x) by now left. f_equal. apply IH. intros y Hy. apply H.
  now right.
Qed.




Lemma buffer_distances_nonempty (efficiency_df : list EfficiencyRow) :
  efficiency_df <> [] -> buffer_distances efficiency_df <> [].
Proof.
  intros Hne Hnil. destruct efficiency_df as [|e t]; [now apply Hne|].
  destruct (buffer_distances_spec (e :: t)) as (_ & _ & Hin).
  assert (H : In (Buffer_Distance_km e) (buffer_distances (e :: t)))
    by (apply Hin; now left).
  rewrite Hnil in H. destruct H.
Qed.

(** [pd.concat] succeeds as soon as the efficiency table has a row, and
    raises on the empty table, for which the loop appends nothing. *)
Lemma notebook_all_scores_df_Ok (efficiency_df : list EfficiencyRow)
  (functionality_df : list FunctionalityRow) :
  efficiency_df <> [] ->
  notebook_all_scores_df efficiency_df functionality_df
  = Ok (all_scores_df efficiency_df functionality_df).
Proof.
  intros Hne. apply buffer_distances_nonempty in Hne.
  unfold notebook_all_scores_df, all_scores_df, all_criticality_scores.
  destruct (buffer_distances efficiency_df) as [|b t]; [now elim Hne|].
  reflexivity.
Qed.





(* ================================================================== *)
(** * Facts about the reporter *)
(* ================================================================== *)

Lemma score_before_total : total score_before.
Proof.
  intros a b. destruct a as [x| | |], b as [y| | |]; simpl; auto.
  destruct (Qltb x y) eqn:E; [|now left].
  right. apply Qltb_true in E. apply negb_true_iff, Qltb_false. lra.
Qed.

Lemma score_before_transitive : transitive score_before.
Proof.
  intros a b c.
  destruct a as [x| | |], b as [y| | |], c as [z| | |]; simpl;
    try reflexivity; try discriminate; auto.
  rewrite !negb_true_iff, !Qltb_false. intros. lra.
Qed.

Lemma row_before_total : total row_before.
Proof. intros r1 r2. apply score_before_total. Qed.

Lemma row_before_transitive : transitive row_before.
Proof.
  intros r1 r2 r3. unfold row_before. apply score_before_transitive.
Qed.

Lemma StronglySorted_firstn (A : Type) (R : A -> A -> Prop) (n : nat)
  (l : list A) :
  StronglySorted R l -> StronglySorted R (firstn n l).
Proof.
  intros H. revert n. induction H as [|x t Hs IH Hx]; intros [|n]; simpl;
    try constructor; auto.
  rewrite Forall_forall in Hx |- *. intros y Hy. apply Hx.
  rewrite <- (firstn_skipn n t). apply in_or_app. now left.
Qed.

Lemma NoDup_firstn (A : Type) (n : nat) (l : list A) :
  NoDup l -> NoDup (firstn n l).
Proof.
  intros H. rewrite <- (firstn_skipn n l) in H.
  now apply NoDup_app_remove_r in H.
Qed.

Section ReporterFacts.

Variable sort : sort_algorithm.
Hypothesis sort_ok : sort_contract sort.

Lemma sort_values_desc_perm (df : list ScoredRow) :
  Permutation (sort_values_desc sort df) df.
Proof. apply (proj1 sort_ok). Qed.

Lemma top_bridges_spec (scores : list ScoredRow) :
  (exists rest, Permutation (top_bridges sort scores ++ rest) scores) /\
  length (top_bridges sort scores) = Nat.min 10 (length scores) /\
  StronglySorted (fun r1 r2 => row_before r1 r2 = true)
                 (top_bridges sort scores).
Proof.
  unfold top_bridges. split; [|split].
  - exists (skipn 10 (sort_values_desc sort scores)).
    rewrite firstn_skipn. apply sort_values_desc_perm.
  - rewrite length_firstn.
    now rewrite (Permutation_length (sort_values_desc_perm scores)).
  - apply StronglySorted_firstn.
    apply (proj2 sort_ok ScoredRow row_before
             row_before_total row_before_transitive).
Qed.

Lemma top_bridges_NoDup (scores : list ScoredRow) :
  NoDup (map row_Bridge_IOP scores) ->
  NoDup (map row_Bridge_IOP (top_bridges sort scores)).
Proof.
  intros H. unfold top_bridges. rewrite <- firstn_map.
  apply NoDup_firstn.
  apply (Permutation_NoDup
           (Permutation_sym
              (Permutation_map row_Bridge_IOP
                 (sort_values_desc_perm scores)))).
  exact H.
Qed.

End ReporterFacts.

Section GroupedByKey.

Variable A : Type.
Variable key : A -> Z.
Variable g : Z -> list A.
Hypothesis key_of_group : forall b x, In x (g b) -> key x = b.

Lemma filter_other_group (b b' : Z) :
  b' <> b -> filter (fun x => (key x =? b)%Z) (g b') = [].
Proof.
  intros Hne. pose proof (key_of_group b') as Hl.
  induction (g b') as [|x t IH]; simpl; [reflexivity|].
  destruct (Z.eqb_spec (key x) b) as [E|_].
  - exfalso. apply Hne. rewrite <- E. symmetry. apply Hl. now left.
  - apply IH. intros y Hy. apply Hl. now right.
Qed.

Lemma filter_flat_map_other (bs : list Z) (b : Z) :
  ~ In b bs -> filter (fun x => (key x =? b)%Z) (flat_map g bs) = [].
Proof.
  induction bs as [|b0 t IH]; simpl; intros Hnot; [reflexivity|].
  rewrite filter_app, filter_other_group, IH; [reflexivity | tauto |].
  intros ->. apply Hnot. now left.
Qed.

Lemma filter_flat_map_key (bs : list Z) (b : Z) :
  NoDup bs -> In b bs ->
  filter (fun x => (key x =? b)%Z) (flat_map g bs) = g b.
Proof.
  induction 1 as [|b0 t Hnot Hnd IH]; intros Hin; [destruct Hin|].
  simpl. rewrite filter_app.
  destruct (Z.eq_dec b0 b) as [->|Hne].
  - rewrite (@filter_flat_map_other t b Hnot), app_nil_r.
    apply filter_all. intros x Hx. apply Z.eqb_eq. eauto.
  - rewrite (@filter_other_group b b0 Hne). simpl. apply IH.
    destruct Hin as [E|Hin]; [contradiction | exact Hin].
Qed.

End GroupedByKey.

(** The group of buffer [b] read back from the comprehensive table is
    the scored table of that group. *)
Lemma buffer_scores_group (efficiency_df : list EfficiencyRow)
  (functionality_df : list FunctionalityRow) (b : Z) :
  In b (buffer_distances efficiency_df) ->
  buffer_scores (all_scores_df efficiency_df functionality_df) b =
  score (merged_df efficiency_df functionality_df b).
Proof.
  intros Hb. unfold buffer_scores. rewrite all_scores_df_flat_map.
  destruct (buffer_distances_spec efficiency_df) as (_ & Hnd & _).
  apply (@filter_flat_map_key ScoredRow row_Buffer
           (fun b => score (merged_df efficiency_df functionality_df b)));
    [|exact Hnd|exact Hb].
  intros b' r Hr. apply In_score_inv in Hr. destruct Hr as [Hm _].
  now apply In_merged_df_buffer in Hm.
Qed.

(** C3, as stated, fails: nothing makes the sort stable.  In a ladder
    the last two rows have the same score 1 and the rows before them lower
    scores.  An algorithm that meets the contract of [sort_values] returns
    the ladder of four rows as K04, K03, K02, K01 and puts K18 before K17 at
    the head of the top ten of the ladder of eighteen rows: in both, the two
    rows of equal score have changed places. *)
Lemma equal_scores_change_places :
  sort_contract tie_reversing_sort /\
  map row_Bridge_IOP (ladder_scores 4)
    = ["K01"; "K02"; "K03"; "K04"]%string /\
  Forall2 float_eq (map Criticality_Score (ladder_scores 4))
          [Fin 0; Fin 0.75; Fin 1; Fin 1] /\
  map row_Bridge_IOP (top_bridges tie_reversing_sort (ladder_scores 4))
    = ["K04"; "K03"; "K02"; "K01"]%string /\
  ~ ties_keep_order (ladder_scores 4)
      (top_bridges tie_reversing_sort (ladder_scores 4)) /\
  map row_Bridge_IOP (ladder_scores 18) = ladder_labels /\
  Forall2 float_eq
    (map Criticality_Score (ladder_scores 18))
    (map (fun k => Fin (inject_Z k / 32))
         [0; 17; 18; 19; 20; 21; 22; 23; 24; 25; 26; 27; 28; 29; 30; 31;
          32; 32]%Z) /\
  map row_Bridge_IOP (top_bridges tie_reversing_sort (ladder_scores 18))
    = ["K18"; "K17"; "K16"; "K15"; "K14"; "K13"; "K12"; "K11"; "K10";
       "K09"]%string /\
  ~ ties_keep_order (ladder_scores 18)
      (top_bridges tie_reversing_sort (ladder_scores 18)).
Proof.
  split; [exact tie_reversing_sort_contract|].
  split; [reflexivity|].
  split; [vm_compute; repeat constructor|].
  split; [reflexivity|].
  split.
  { intros H. destruct (H (Fin 1)) as [rest E].
    vm_compute in E. discriminate E. }
  split; [reflexivity|].
  split; [vm_compute; repeat constructor|].
  split; [vm_compute; reflexivity|].
  intros H. destruct (H (Fin 1)) as [rest E].
  vm_compute in E. discriminate E.
Qed.

(** C3, amended.  Whatever sorting algorithm [sort_values] uses within
    its contract, the top ten of a buffer group is part of the group's scored
    rows (together with the rows left out it is a rearrangement of them), has
    min(10, group size) rows and is in descending order of criticality score,
    NaN scores last.  The group read from the comprehensive table is the
    scored table of that buffer distance.  The order among equal scores is
    not determined. *)
Theorem top_bridges_sorted_selection :
  forall sort : sort_algorithm,
    sort_contract sort ->
    (forall scores : list ScoredRow,
        (exists rest,
            Permutation (top_bridges sort scores ++ rest) scores) /\
        (forall r, In r (top_bridges sort scores) -> In r scores) /\
        length (top_bridges sort scores) = Nat.min 10 (length scores) /\
        StronglySorted (fun r1 r2 => row_before r1 r2 = true)
                       (top_bridges sort scores)) /\
    (forall (efficiency_df : list EfficiencyRow)
            (functionality_df : list FunctionalityRow) (b : Z),
        In b (buffer_distances efficiency_df) ->
        top_of_buffer sort (all_scores_df efficiency_df functionality_df) b
        = top_bridges sort
            (score (merged_df efficiency_df functionality_df b))).
Proof.
  intros sort Hsort. split.
  - intros scores.
    destruct (top_bridges_spec Hsort scores) as ((rest & Hp) & Hlen & Hs).
    split; [now exists rest|]. split; [|split; assumption].
    intros r Hr. apply (Permutation_in _ Hp). apply in_or_app. now left.
  - intros E F b Hb. unfold top_of_buffer.
    now rewrite buffer_scores_group.
Qed.

Lemma top_bridges_sorted_selection_witness :
  sort_contract tie_reversing_sort /\
  length (top_bridges tie_reversing_sort (ladder_scores 18))
    = Nat.min 10 (length (ladder_scores 18)).
Proof.
  split; [exact tie_reversing_sort_contract|].
  exact (proj1 (proj2 (proj2
           (proj1 (top_bridges_sorted_selection
                     tie_reversing_sort_contract) (ladder_scores 18))))).
Defined.

(* ------------------------------------------------------------------ *)
(** ** Counting bridges in the summary *)
(* ------------------------------------------------------------------ *)

Lemma find_key_In (l : list (string * nat)) (k : string) (v : nat) :
  NoDup (map fst l) -> In (k, v) l ->
  find (fun p => String.eqb (fst p) k) l = Some (k, v).
Proof.
  induction l as [|[k' v'] t IH]; simpl; intros Hnd Hin; [destruct Hin|].
  inversion Hnd as [|? ? Hnot Hnd']; subst.
  destruct Hin as [E|Hin].
  - injection E as -> ->. now rewrite String.eqb_refl.
  - destruct (String.eqb k' k) eqn:E; [|now apply IH].
    apply String.eqb_eq in E. subst k'. exfalso. apply Hnot.
    apply in_map_iff. exists (k, v). auto.
Qed.

Lemma find_key_absent (l : list (string * nat)) (k : string) :
  ~ In k (map fst l) -> find (fun p => String.eqb (fst p) k) l = None.
Proof.
  induction l as [|[k' v'] t IH]; simpl; intros Hnot; [reflexivity|].
  destruct (String.eqb k' k) eqn:E.
  - apply String.eqb_eq in E. exfalso. apply Hnot. now left.
  - apply IH. intros H. apply Hnot. now right.
Qed.

Lemma count_occ_flat_map (A : Type) (g : A -> list string) (l : list A)
  (k : string) :
  count_occ string_dec (flat_map g l) k =
  list_sum (map (fun a => count_occ string_dec (g a) k) l).
Proof.
  induction l as [|a t IH]; simpl; [reflexivity|].
  now rewrite count_occ_app, IH.
Qed.

Lemma list_sum_indicator (A : Type) (p : A -> bool) (l : list A) :
  list_sum (map (fun a => if p a then 1 else 0) l) = length (filter p l).
Proof.
  induction l as [|a t IH]; simpl; [reflexivity|].
  rewrite IH. now destruct (p a).
Qed.

Lemma count_occ_NoDup_indicator (l : list string) (k : string) :
  NoDup l ->
  count_occ string_dec l k = if existsb (fun x => String.eqb x k) l
                             then 1 else 0.
Proof.
  intros Hnd.
  destruct (existsb (fun x => String.eqb x k) l) eqn:E.
  - apply existsb_exists in E. destruct E as (x & Hx & Ex).
    apply String.eqb_eq in Ex. subst x.
    pose proof (proj1 (NoDup_count_occ string_dec l) Hnd k) as Hle.
    pose proof (proj1 (count_occ_In string_dec l k) Hx) as Hpos.
    lia.
  - apply count_occ_not_In. intros Hin.
    assert (T : existsb (fun x => String.eqb x k) l = true).
    { apply existsb_exists. exists k. split; [exact Hin|].
      apply String.eqb_refl. }
    congruence.
Qed.

Section Frequency.

Variable sort : sort_algorithm.
Hypothesis sort_ok : sort_contract sort.

(** Looking a label up in [value_counts] gives its number of
    occurrences, whatever the order of the index. *)
Lemma series_get_value_counts (col : list string) (k : string) :
  series_get (value_counts sort col) k =
  if in_dec string_dec k col
  then Some (count_occ string_dec col k) else None.
Proof.
  unfold value_counts, series_get.
  set (base := map (fun label => (label, count_occ string_dec col label))
                   (unique String.eqb col)).
  set (out := @sort (string * nat)%type
                    (fun p q => Nat.leb (snd q) (snd p)) base).
  assert (Hp : Permutation out base) by apply (proj1 sort_ok).
  assert (Hkeys : map fst base = unique String.eqb col).
  { unfold base. rewrite map_map. simpl. apply map_id. }
  assert (Hnd : NoDup (map fst out)).
  { apply (Permutation_NoDup
             (Permutation_sym (Permutation_map fst Hp))).
    rewrite Hkeys. apply unique_NoDup. apply String.eqb_eq. }
  destruct (in_dec string_dec k col) as [Hin|Hout].
  - rewrite (@find_key_In out k (count_occ string_dec col k) Hnd);
      [reflexivity|].
    apply (Permutation_in _ (Permutation_sym Hp)).
    unfold base. apply in_map_iff. exists k. split; [reflexivity|].
    exact (proj2 (@unique_In string String.eqb String.eqb_eq k col) Hin).
  - rewrite find_key_absent; [reflexivity|].
    intros H. apply Hout.
    apply (Permutation_in _ (Permutation_map fst Hp)) in H.
    rewrite Hkeys in H.
    exact (proj1 (@unique_In string String.eqb String.eqb_eq k col) H).
Qed.

Lemma frequency_count (efficiency_df : list EfficiencyRow)
  (functionality_df : list FunctionalityRow) (bridge : string) :
  frequency sort efficiency_df functionality_df bridge =
  count_occ string_dec
    (map s_Bridge_IOP
         (notebook_summary_df sort efficiency_df functionality_df))
    bridge.
Proof.
  unfold frequency, bridge_frequency.
  rewrite series_get_value_counts.
  destruct (in_dec string_dec bridge _) as [Hin|Hout]; [reflexivity|].
  symmetry. now apply count_occ_not_In.
Qed.

Lemma summary_bridges (buffers : list Z) (all_scores : list ScoredRow) :
  map s_Bridge_IOP (summary_df sort buffers all_scores) =
  flat_map (fun b => map row_Bridge_IOP (top_of_buffer sort all_scores b))
           buffers.
Proof.
  unfold summary_df. induction buffers as [|b t IH]; simpl; [reflexivity|].
  rewrite map_app, IH, map_map. reflexivity.
Qed.

End Frequency.

Lemma existsb_map (A B : Type) (f : B -> bool) (g : A -> B) (l : list A) :
  existsb f (map g l) = existsb (fun a => f (g a)) l.
Proof.
  induction l as [|a t IH]; simpl; [reflexivity|]. now rewrite IH.
Qed.

(** C8.  Assume that in every buffer group each bridge has at most one
    row.  Then, whatever sorting algorithm is used within the contract, the
    count of a bridge in [bridge_frequency] is the number of buffer
    distances (all distinct) whose top ten contains the bridge; a bridge
    that is in the top ten of each of 11 buffer distances is counted 11
    times. *)
Theorem bridge_frequency_counts_buffer_groups :
  forall sort : sort_algorithm,
    sort_contract sort ->
    forall (efficiency_df : list EfficiencyRow)
           (functionality_df : list FunctionalityRow) (bridge : string),
      (forall b, In b (buffer_distances efficiency_df) ->
         NoDup (map row_Bridge_IOP
                    (buffer_scores
                       (all_scores_df efficiency_df functionality_df) b))) ->
      NoDup (buffer_distances efficiency_df) /\
      frequency sort efficiency_df functionality_df bridge =
        length (filter
                  (in_top_of_buffer sort
                     (all_scores_df efficiency_df functionality_df) bridge)
                  (buffer_distances efficiency_df)) /\
      (length (buffer_distances efficiency_df) = 11 ->
       (forall b, In b (buffer_distances efficiency_df) ->
          in_top_of_buffer sort
            (all_scores_df efficiency_df functionality_df) bridge b = true) ->
       frequency sort efficiency_df functionality_df bridge = 11).
Proof.
  intros sort Hsort E F bridge Huniq.
  assert (Hfreq : frequency sort E F bridge =
            length (filter (in_top_of_buffer sort (all_scores_df E F) bridge)
                           (buffer_distances E))).
  { rewrite (frequency_count Hsort). unfold notebook_summary_df.
    rewrite summary_bridges, count_occ_flat_map.
    rewrite <- list_sum_indicator. f_equal.
    apply map_ext_in. intros b Hb.
    rewrite count_occ_NoDup_indicator.
    - unfold in_top_of_buffer. now rewrite existsb_map.
    - unfold top_of_buffer. apply (top_bridges_NoDup Hsort). auto. }
  split; [apply buffer_distances_spec|]. split; [exact Hfreq|].
  intros Hlen Hall. rewrite Hfreq, filter_all; auto.
Qed.

Lemma bridge_frequency_counts_buffer_groups_witness :
  sort_contract stable_sort_algorithm /\
  length (buffer_distances eleven_buffers_efficiency_df) = 11 /\
  frequency stable_sort_algorithm eleven_buffers_efficiency_df
            scenario_functionality_df "B1" = 11.
Proof.
  split; [exact stable_sort_algorithm_contract|].
  split; [reflexivity|].
  refine (proj2 (proj2 (@bridge_frequency_counts_buffer_groups
                          stable_sort_algorithm
                          stable_sort_algorithm_contract
                          eleven_buffers_efficiency_df
                          scenario_functionality_df "B1"%string _))
                eq_refl _).
  - intros b Hb. vm_compute in Hb.
    repeat (destruct Hb as [<-|Hb];
            [vm_compute; repeat constructor; simpl; intuition discriminate|]).
    destruct Hb.
  - intros b Hb. vm_compute in Hb.
    repeat (destruct Hb as [<-|Hb]; [reflexivity|]).
    destruct Hb.
Defined.

(* ------------------------------------------------------------------ *)
(** ** The stable algorithm keeps ties in order *)
(* ------------------------------------------------------------------ *)

Lemma same_score_before (a b s : float) :
  feqb a s = true -> feqb b s = true -> score_before a b = true.
Proof.
  destruct a as [x| | |], b as [y| | |], s as [z| | |]; simpl;
    try discriminate; try reflexivity.
  intros Ha Hb. apply Qeq_bool_iff in Ha, Hb.
  apply negb_true_iff, Qltb_false. lra.
Qed.

Lemma filter_insert_before_tie (s : float) (x : ScoredRow)
  (l : list ScoredRow) :
  filter (fun r => feqb (Criticality_Score r) s)
         (insert_before row_before x l)
  = filter (fun r => feqb (Criticality_Score r) s) (x :: l).
Proof.
  induction l as [|y t IH]; [reflexivity|].
  simpl insert_before. destruct (row_before x y) eqn:E; [reflexivity|].
  simpl. simpl in IH. rewrite IH.
  destruct (feqb (Criticality_Score x) s) eqn:Ex; [|reflexivity].
  destruct (feqb (Criticality_Score y) s) eqn:Ey; [|reflexivity].
  unfold row_before in E. rewrite (@same_score_before _ _ s Ex Ey) in E.
  discriminate E.
Qed.

(** With the stable algorithm the top ten does keep equal scores in
    their original order. *)
Lemma stable_sort_keeps_ties (scores : list ScoredRow) :
  ties_keep_order scores (top_bridges stable_sort_algorithm scores).
Proof.
  intros s. unfold top_bridges, sort_values_desc, stable_sort_algorithm.
  exists (filter (fun r => feqb (Criticality_Score r) s)
                 (skipn 10 (stable_sort row_before scores))).
  rewrite <- filter_app, firstn_skipn.
  induction scores as [|x t IH]; [reflexivity|].
  simpl stable_sort. rewrite filter_insert_before_tie. simpl.
  now rewrite IH.
Qed.

(* ================================================================== *)
(** * Further properties of the notebook *)
(* ================================================================== *)

(* ------------------------------------------------------------------ *)
(** ** Normalizer *)
(* ------------------------------------------------------------------ *)

Lemma rstrip_repeat (p : ascii -> bool) (c : ascii) (n : nat)
  (l : list ascii) :
  p c = true -> rstrip p (l ++ repeat c n) = rstrip p l.
Proof.
  intros Hc. induction n as [|n IH]; simpl.
  - now rewrite app_nil_r.
  - rewrite repeat_cons, app_assoc, rstrip_snoc by exact Hc. exact IH.
Qed.

Lemma chars_string_of_list (l : list ascii) :
  chars (string_of_list_ascii l) = l.
Proof. apply list_ascii_of_string_of_list_ascii. Qed.

(** X1.  [rstrip('%')] removes every trailing percent sign, however
    many: a numeric text followed by any number of percent signs is converted
    to the number of the text.  A percent sign that is still there after the
    trailing ones are gone makes the conversion fail. *)
Theorem percent_signs_stripped_or_rejected :
  (forall (s : string) (x : float) (n : nat),
      float_of_string s = Some x ->
      clean_functionality
        (s ++ string_of_list_ascii (repeat "%"%char n)) = Some x) /\
  (forall s : string,
      In "%"%char (rstrip is_percent (chars s)) ->
      clean_functionality s = None).
Proof.
  split.
  - intros s x n H. unfold clean_functionality.
    rewrite chars_append, chars_string_of_list.
    rewrite rstrip_repeat by reflexivity.
    unfold float_of_string in H. now rewrite (rstrip_percent_numeric _ H).
  - intros s Hin. unfold clean_functionality.
    destruct (float_of_chars (rstrip is_percent (chars s))) as [x|] eqn:E;
      [|reflexivity].
    pose proof (float_of_chars_numeric _ E _ Hin) as N. discriminate N.
Qed.

Lemma percent_signs_stripped_or_rejected_witness :
  float_of_string "93.4" = Some (Fin 93.4) /\
  clean_functionality "93.4%%%" = Some (Fin 93.4) /\
  In "%"%char (rstrip is_percent (chars "9%3")) /\
  clean_functionality "9%3" = None.
Proof.
  assert (H : float_of_string "93.4" = Some (Fin 93.4)) by reflexivity.
  assert (I : In "%"%char (rstrip is_percent (chars "9%3")))
    by (right; left; reflexivity).
  split; [exact H|]. split.
  - exact (proj1 percent_signs_stripped_or_rejected
             "93.4"%string (Fin 93.4) 3 H).
  - split; [exact I|].
    exact (proj2 percent_signs_stripped_or_rejected "9%3"%string I).
Defined.

Lemma astype_float_Some_inv (col : list (list ascii)) :
  forall xs, astype_float col = Some xs ->
    Forall2 (fun s x => float_of_chars s = Some x) col xs.
Proof.
  induction col as [|s t IH]; simpl; intros xs H.
  - injection H as <-. constructor.
  - destruct (float_of_chars s) as [x|] eqn:E; [|discriminate].
    destruct (astype_float t) as [ys|]; [|discriminate].
    injection H as <-. constructor; auto.
Qed.

Lemma normalized_rows_spec (df : list RawFunctionalityRow)
  (col : list float) :
  Forall2 (fun raw x => clean_functionality (Functionality_str raw) = Some x)
          df col ->
  length (normalized_rows df col) = length df /\
  map func_Bridge_IOP (normalized_rows df col) = map IOP df /\
  Forall2 (fun raw row =>
             clean_functionality (Functionality_str raw)
             = Some (func_Functionality row))
          df (normalized_rows df col).
Proof.
  unfold normalized_rows.
  induction 1 as [|raw x df col Hx _ (IH1 & IH2 & IH3)]; simpl.
  - repeat split; constructor.
  - rewrite IH1, IH2. repeat split. now constructor.
Qed.

(** X2.  When the Normalizer succeeds, the table it returns has as many
    rows as the table it was given, in the same order: the same bridge
    identifiers under the new column name, and for each row the number read
    from that row's own text. *)
Theorem normalize_keeps_rows :
  forall (df : list RawFunctionalityRow) (rows : list FunctionalityRow),
    normalize df = Some rows ->
    length rows = length df /\
    map func_Bridge_IOP rows = map IOP df /\
    Forall2 (fun raw row =>
               clean_functionality (Functionality_str raw)
               = Some (func_Functionality row))
            df rows.
Proof.
  intros df rows H. unfold normalize in H.
  destruct (astype_float (str_rstrip_percent (map Functionality_str df)))
    as [col|] eqn:E; [|discriminate].
  injection H as <-. apply normalized_rows_spec.
  apply astype_float_Some_inv in E. unfold str_rstrip_percent in E.
  rewrite map_map in E. clear - E.
  remember (map _ df) as l eqn:El. revert df El.
  induction E as [|s x l col Hs _ IH]; intros df El.
  - destruct df; [constructor | discriminate].
  - destruct df as [|raw df]; [discriminate|]. simpl in El.
    injection El as -> ->. constructor; [exact Hs | now apply IH].
Qed.

Lemma normalize_keeps_rows_witness :
  normalize scenario_raw_functionality_df = Some scenario_functionality_df /\
  map func_Bridge_IOP scenario_functionality_df
  = map IOP scenario_raw_functionality_df.
Proof.
  assert (H : normalize scenario_raw_functionality_df
              = Some scenario_functionality_df) by reflexivity.
  split; [exact H|].
  exact (proj1 (proj2 (normalize_keeps_rows _ H))).
Defined.

(* ------------------------------------------------------------------ *)
(** ** Scorer: the shape of the score inside one group *)
(* ------------------------------------------------------------------ *)

Lemma fsub_Fin (a b : Q) : fsub (Fin a) (Fin b) = Fin (a + - b).
Proof. reflexivity. Qed.

(** The closed form of every derived value in a group of finite inputs
    whose two metrics are not constant. *)
Lemma score_formula (group : list MergedRow) :
  Forall finite_row group ->
  fltb (Series_min (map Functionality group))
       (Series_max (map Functionality group)) = true ->
  fltb (Series_min (map abs_change group))
       (Series_max (map abs_change group)) = true ->
  exists lo hi elo ehi,
    (lo < hi)%Q /\ (elo < ehi)%Q /\
    Series_min (map Functionality group) = Fin lo /\
    Series_max (map Functionality group) = Fin hi /\
    Series_min (map abs_change group) = Fin elo /\
    Series_max (map abs_change group) = Fin ehi /\
    forall r, In r (score group) ->
      exists x y,
        (lo <= x <= hi)%Q /\ (elo <= y <= ehi)%Q /\
        Functionality (merged r) = Fin x /\
        abs_change (merged r) = Fin y /\
        Norm_Func r = Fin (1 + - ((x + - lo) / (hi + - lo))) /\
        Norm_Eff r = Fin ((y + - elo) / (ehi + - elo)) /\
        Criticality_Score r =
          Fin ((1 + - ((x + - lo) / (hi + - lo))
                + (y + - elo) / (ehi + - elo)) / 2).
Proof.
  intros Hfin Hf He.
  pose proof (In_Functionality_finite Hfin) as HF.
  pose proof (In_abs_change_finite Hfin) as HE.
  assert (Hne : group <> []).
  { intros ->. discriminate Hf. }
  assert (HneF : map Functionality group <> [])
    by (destruct group; [congruence | discriminate]).
  assert (HneE : map abs_change group <> [])
    by (destruct group; [congruence | discriminate]).
  destruct (Series_min_finite HF HneF) as (lo & Elo & _ & Hlo).
  destruct (Series_max_finite HF HneF) as (hi & Ehi & _ & Hhi).
  destruct (Series_min_finite HE HneE) as (elo & Eelo & _ & Helo).
  destruct (Series_max_finite HE HneE) as (ehi & Eehi & _ & Hehi).
  rewrite Elo, Ehi in Hf. rewrite Eelo, Eehi in He.
  simpl in Hf, He. apply Qltb_true in Hf, He.
  exists lo, hi, elo, ehi. repeat (split; [assumption|]).
  intros r Hr. apply In_score_inv in Hr.
  destruct Hr as (Hm & _ & Enf & Ene & Ecs & _).
  pose proof (in_map Functionality _ _ Hm) as HxIn.
  pose proof (in_map abs_change _ _ Hm) as HyIn.
  rewrite Forall_forall in HF, HE.
  destruct (finite_inv _ (HF _ HxIn)) as [x Ex].
  destruct (finite_inv _ (HE _ HyIn)) as [y Ey].
  rewrite Ex in HxIn. rewrite Ey in HyIn.
  exists x, y.
  split; [split; [apply Hlo | apply Hhi]; exact HxIn|].
  split; [split; [apply Helo | apply Hehi]; exact HyIn|].
  split; [exact Ex|]. split; [exact Ey|].
  rewrite Elo, Ehi, Ex in Enf. rewrite Eelo, Eehi, Ey in Ene.
  rewrite !fsub_Fin, fdiv_finite in Ene by lra.
  rewrite !fsub_Fin, fdiv_finite in Enf by lra.
  unfold fone in Enf. rewrite fsub_Fin in Enf.
  split; [exact Enf|]. split; [exact Ene|].
  rewrite Ecs, Enf, Ene. reflexivity.
Qed.

Lemma ratio_zero_iff (a d : Q) :
  (0 < d)%Q -> ((a / d == 0)%Q <-> (a == 0)%Q).
Proof.
  intros Hd. split; intros H.
  - assert (E : (a == d * (a / d))%Q)
      by (symmetry; apply Qmult_div_r; lra).
    rewrite E, H. ring.
  - rewrite H. unfold Qdiv. ring.
Qed.

Lemma ratio_one_iff (a d : Q) :
  (0 < d)%Q -> ((a / d == 1)%Q <-> (a == d)%Q).
Proof.
  intros Hd. split; intros H.
  - assert (E : (a == d * (a / d))%Q)
      by (symmetry; apply Qmult_div_r; lra).
    rewrite E, H. ring.
  - rewrite H. apply Qmult_inv_r. lra.
Qed.

Lemma ratio_bounds (a d : Q) :
  (0 < d)%Q -> (0 <= a)%Q -> (a <= d)%Q -> (0 <= a / d <= 1)%Q.
Proof.
  intros Hd H0 H1. split.
  - apply Qle_shift_div_l; [exact Hd | lra].
  - apply Qle_shift_div_r; [exact Hd | lra].
Qed.

Lemma ratio_monotone (a b d : Q) :
  (0 < d)%Q -> (a <= b)%Q -> (a / d <= b / d)%Q.
Proof.
  intros Hd Hab. unfold Qdiv. apply Qmult_le_compat_r; [exact Hab|].
  apply Qlt_le_weak, Qinv_lt_0_compat, Hd.
Qed.

(** X3.  In a group of finite inputs whose two metrics are not
    constant, a row with the lowest functionality and the largest absolute
    efficiency change of the group has Norm_Func 1, Norm_Eff 1 and the
    criticality score 1, and a row with the highest functionality and the
    smallest absolute change has Norm_Func 0, Norm_Eff 0 and the score 0. *)
Theorem extreme_rows_score_one_and_zero :
  forall group : list MergedRow,
    Forall finite_row group ->
    fltb (Series_min (map Functionality group))
         (Series_max (map Functionality group)) = true ->
    fltb (Series_min (map abs_change group))
         (Series_max (map abs_change group)) = true ->
    forall r, In r (score group) ->
      (float_eq (Functionality (merged r))
                (Series_min (map Functionality group)) ->
       float_eq (Normalized_Efficiency_Change r)
                (Series_max (map abs_change group)) ->
       float_eq (Norm_Func r) (Fin 1) /\
       float_eq (Norm_Eff r) (Fin 1) /\
       float_eq (Criticality_Score r) (Fin 1)) /\
      (float_eq (Functionality (merged r))
                (Series_max (map Functionality group)) ->
       float_eq (Normalized_Efficiency_Change r)
                (Series_min (map abs_change group)) ->
       float_eq (Norm_Func r) (Fin 0) /\
       float_eq (Norm_Eff r) (Fin 0) /\
       float_eq (Criticality_Score r) (Fin 0)).
Proof.
  intros group Hfin Hf He r Hr.
  destruct (score_formula Hfin Hf He)
    as (lo & hi & elo & ehi & Hlt & Helt & -> & -> & -> & -> & Hrows).
  destruct (Hrows r Hr) as (x & y & Bx & By & Ex & Ey & Enf & Ene & Ecs).
  pose proof Hr as Hr'. apply In_score_inv in Hr'.
  destruct Hr' as (_ & Enec & _).
  rewrite Enec, Ex, Ey, Enf, Ene, Ecs. simpl.
  assert (Hd : (0 < hi + - lo)%Q) by lra.
  assert (Hde : (0 < ehi + - elo)%Q) by lra.
  pose proof (@ratio_zero_iff (x + - lo) (hi + - lo) Hd) as Zf.
  pose proof (@ratio_one_iff (x + - lo) (hi + - lo) Hd) as Of.
  pose proof (@ratio_zero_iff (y + - elo) (ehi + - elo) Hde) as Ze.
  pose proof (@ratio_one_iff (y + - elo) (ehi + - elo) Hde) as Oe.
  set (f := ((x + - lo) / (hi + - lo))%Q) in *.
  set (e := ((y + - elo) / (ehi + - elo))%Q) in *.
  assert (Half : forall q : Q, (q / 2 == q * (1 # 2))%Q)
    by (intros q; unfold Qdiv; reflexivity).
  split; intros H1 H2.
  - assert (F0 : (f == 0)%Q) by (apply Zf; lra).
    assert (E1 : (e == 1)%Q) by (apply Oe; lra).
    rewrite Half. repeat split; lra.
  - assert (F1 : (f == 1)%Q) by (apply Of; lra).
    assert (E0 : (e == 0)%Q) by (apply Ze; lra).
    rewrite Half. repeat split; lra.
Qed.

Lemma extreme_rows_score_one_and_zero_witness :
  Forall finite_row scenario_group /\
  Forall (fun r =>
            float_eq (Functionality (merged r)) (Fin 80) ->
            float_eq (Normalized_Efficiency_Change r) (Fin 0.02) ->
            float_eq (Criticality_Score r) (Fin 1))
         (score scenario_group).
Proof.
  assert (H1 : Forall finite_row scenario_group) by (repeat constructor).
  split; [exact H1|].
  apply Forall_forall. intros r Hr Hf He.
  exact (proj2 (proj2 (proj1 (@extreme_rows_score_one_and_zero
                                scenario_group H1 eq_refl eq_refl r Hr)
                             Hf He))).
Defined.

(** X4.  In a group of finite inputs whose two metrics are not
    constant, the score is monotone: a row whose functionality is not higher
    and whose absolute efficiency change is not smaller than another row's
    has a score that is not smaller; both scores are finite. *)
Theorem criticality_score_monotone :
  forall group : list MergedRow,
    Forall finite_row group ->
    fltb (Series_min (map Functionality group))
         (Series_max (map Functionality group)) = true ->
    fltb (Series_min (map abs_change group))
         (Series_max (map abs_change group)) = true ->
    forall r1 r2, In r1 (score group) -> In r2 (score group) ->
      fle (Functionality (merged r1)) (Functionality (merged r2)) ->
      fle (Normalized_Efficiency_Change r2)
          (Normalized_Efficiency_Change r1) ->
      fle (Norm_Func r2) (Norm_Func r1) /\
      fle (Norm_Eff r2) (Norm_Eff r1) /\
      fle (Criticality_Score r2) (Criticality_Score r1).
Proof.
  intros group Hfin Hf He r1 r2 Hr1 Hr2.
  destruct (score_formula Hfin Hf He)
    as (lo & hi & elo & ehi & Hlt & Helt & _ & _ & _ & _ & Hrows).
  destruct (Hrows r1 Hr1) as (x1 & y1 & _ & _ & Ex1 & Ey1 & Enf1 & Ene1 & Ecs1).
  destruct (Hrows r2 Hr2) as (x2 & y2 & _ & _ & Ex2 & Ey2 & Enf2 & Ene2 & Ecs2).
  pose proof Hr1 as Hr1'. apply In_score_inv in Hr1'.
  destruct Hr1' as (_ & Enec1 & _).
  pose proof Hr2 as Hr2'. apply In_score_inv in Hr2'.
  destruct Hr2' as (_ & Enec2 & _).
  rewrite Enec1, Enec2, Ex1, Ex2, Ey1, Ey2, Enf1, Enf2, Ene1, Ene2, Ecs1, Ecs2.
  simpl. intros Hx Hy.
  assert (Hd : (0 < hi + - lo)%Q) by lra.
  assert (Hde : (0 < ehi + - elo)%Q) by lra.
  assert (Mf : ((x1 + - lo) / (hi + - lo) <= (x2 + - lo) / (hi + - lo))%Q)
    by (apply ratio_monotone; lra).
  assert (Me : ((y2 + - elo) / (ehi + - elo)
                <= (y1 + - elo) / (ehi + - elo))%Q)
    by (apply ratio_monotone; lra).
  split; [lra|]. split; [lra|].
  apply ratio_monotone; lra.
Qed.

Lemma criticality_score_monotone_witness :
  Forall finite_row scenario_group /\
  Forall (fun r2 =>
            Forall (fun r1 =>
                      fle (Functionality (merged r1))
                          (Functionality (merged r2)) ->
                      fle (Normalized_Efficiency_Change r2)
                          (Normalized_Efficiency_Change r1) ->
                      fle (Criticality_Score r2) (Criticality_Score r1))
                   (score scenario_group))
         (score scenario_group).
Proof.
  assert (H1 : Forall finite_row scenario_group) by (repeat constructor).
  split; [exact H1|].
  apply Forall_forall. intros r2 Hr2. apply Forall_forall. intros r1 Hr1.
  intros Hx Hy.
  exact (proj2 (proj2 (@criticality_score_monotone scenario_group H1
                         eq_refl eq_refl r1 r2 Hr1 Hr2 Hx Hy))).
Defined.

Lemma fabs_fneg (x : float) : fabs (fneg x) = fabs x.
Proof.
  destruct x as [[n d]| | |]; simpl; try reflexivity.
  unfold Qabs, Qopp. simpl. now rewrite Z.abs_opp.
Qed.

Lemma abs_change_flip (flip : MergedRow -> bool) (m : MergedRow) :
  abs_change (if flip m then negate_change m else m) = abs_change m.
Proof.
  destruct (flip m); [|reflexivity].
  unfold abs_change, negate_change. simpl. apply fabs_fneg.
Qed.

Lemma Functionality_flip (flip : MergedRow -> bool) (m : MergedRow) :
  Functionality (if flip m then negate_change m else m) = Functionality m.
Proof. now destruct (flip m). Qed.

(** X5.  The score looks at the magnitude of the efficiency change
    only: reversing the sign of [Change in Efficiency] in any rows of a group
    leaves every row's normalized efficiency change, Norm_Func, Norm_Eff and
    criticality score as they were. *)
Theorem score_ignores_sign_of_change :
  forall (flip : MergedRow -> bool) (group : list MergedRow),
    map Normalized_Efficiency_Change (score (flip_changes flip group))
      = map Normalized_Efficiency_Change (score group) /\
    map Norm_Func (score (flip_changes flip group))
      = map Norm_Func (score group) /\
    map Norm_Eff (score (flip_changes flip group))
      = map Norm_Eff (score group) /\
    map Criticality_Score (score (flip_changes flip group))
      = map Criticality_Score (score group).
Proof.
  intros flip group.
  assert (EA : map abs_change (flip_changes flip group)
               = map abs_change group).
  { unfold flip_changes. rewrite map_map. apply map_ext.
    intros m. apply abs_change_flip. }
  assert (EF : map Functionality (flip_changes flip group)
               = map Functionality group).
  { unfold flip_changes. rewrite map_map. apply map_ext.
    intros m. apply Functionality_flip. }
  unfold score. rewrite EA, EF. unfold flip_changes.
  rewrite !map_map. simpl.
  repeat split; apply map_ext; intros m;
    now rewrite ?abs_change_flip, ?Functionality_flip.
Qed.

Lemma Qabs_zero_iff (b : Q) : (Qabs b == 0)%Q <-> (b == 0)%Q.
Proof.
  split; intros H.
  - destruct (Qlt_le_dec b 0) as [L|L].
    + rewrite (Qabs_neg b) in H by lra. lra.
    + rewrite (Qabs_pos b) in H by lra. exact H.
  - rewrite H. reflexivity.
Qed.

Lemma Qeq_bool_Qabs_zero (b : Q) : Qeq_bool (Qabs b) 0 = Qeq_bool b 0.
Proof.
  destruct (Qeq_bool b 0) eqn:E.
  - apply Qeq_bool_iff. apply Qabs_zero_iff. now apply Qeq_bool_iff.
  - apply Qeq_bool_false. intros H.
    exact (proj1 (Qeq_bool_false b 0) E (proj1 (Qabs_zero_iff b) H)).
Qed.

Lemma Qltb_zero_Qabs (a : Q) : ~ (a == 0)%Q -> Qltb 0 (Qabs a) = true.
Proof.
  intros H. apply Qltb_true.
  pose proof (Qabs_nonneg a) as N.
  destruct (Qeq_dec (Qabs a) 0) as [E|E].
  - exfalso. apply H. apply Qabs_zero_iff. exact E.
  - lra.
Qed.

Lemma Qltb_Qabs_zero (b : Q) : Qltb (Qabs b) 0 = false.
Proof. apply Qltb_false. apply Qabs_nonneg. Qed.

(** The absolute value of a quotient is the quotient of the absolute
    values, zero divisors and infinities included. *)
Lemma fabs_fdiv (x y : float) :
  float_eq (fabs (fdiv x y)) (fdiv (fabs x) (fabs y)).
Proof.
  destruct x as [a| | |], y as [b| | |];
    try (simpl; rewrite ?Qltb_Qabs_zero; try destruct (Qltb b 0);
         simpl; auto; reflexivity).
  unfold fdiv, fabs at 2 3. rewrite Qeq_bool_Qabs_zero.
  destruct (Qeq_bool b 0) eqn:Eb.
  - rewrite Qeq_bool_Qabs_zero. destruct (Qeq_bool a 0) eqn:Ea; simpl; auto.
    apply Qeq_bool_false in Ea. rewrite (Qltb_zero_Qabs Ea).
    now destruct (Qltb 0 a).
  - change (Qabs (a / b) == Qabs a / Qabs b)%Q.
    unfold Qdiv. rewrite Qabs_Qmult, Qabs_Qinv. reflexivity.
Qed.

(** X6.  In every scored row the absolute relative efficiency change is
    the normalized efficiency change divided by the magnitude of the original
    global efficiency (infinite or NaN when that is zero). *)
Theorem absolute_relative_change_is_scaled_magnitude :
  forall (group : list MergedRow) (r : ScoredRow),
    In r (score group) ->
    float_eq (Absolute_Relative_Efficiency_Change r)
             (fdiv (Normalized_Efficiency_Change r)
                   (fabs (Original_Global_Efficiency (eff (merged r))))).
Proof.
  intros group r Hr. apply In_score_inv in Hr.
  destruct Hr as (_ & Enec & _ & _ & _ & Erel & Eabs).
  rewrite Eabs, Erel, Enec. apply fabs_fdiv.
Qed.

Lemma absolute_relative_change_is_scaled_magnitude_witness :
  Forall (fun r =>
            float_eq (Absolute_Relative_Efficiency_Change r)
                     (fdiv (Normalized_Efficiency_Change r) (Fin 0.50)))
         (score scenario_group).
Proof.
  apply Forall_forall. intros r Hr.
  pose proof (@absolute_relative_change_is_scaled_magnitude
                scenario_group r Hr) as H.
  destruct Hr as [<-|[<-|[]]]; exact H.
Defined.

(* ------------------------------------------------------------------ *)
(** ** Scorer: groups and the loop state *)
(* ------------------------------------------------------------------ *)

Lemma buffer_rows_absent (efficiency_df : list EfficiencyRow) (b : Z) :
  ~ In b (map Buffer_Distance_km efficiency_df) ->
  buffer_rows efficiency_df b = [].
Proof.
  unfold buffer_rows. induction efficiency_df as [|e t IH]; simpl;
    intros H; [reflexivity|].
  destruct (Z.eqb_spec (Buffer_Distance_km e) b) as [E|_].
  - exfalso. apply H. now left.
  - apply IH. intros Hin. apply H. now right.
Qed.

(** The group of any buffer distance, read back from the comprehensive
    table, is the scored join of that distance (empty when the distance
    does not occur). *)
Lemma buffer_scores_any (efficiency_df : list EfficiencyRow)
  (functionality_df : list FunctionalityRow) (b : Z) :
  buffer_scores (all_scores_df efficiency_df functionality_df) b =
  score (merged_df efficiency_df functionality_df b).
Proof.
  destruct (in_dec Z.eq_dec b (buffer_distances efficiency_df)) as [Hin|Hout].
  - now apply buffer_scores_group.
  - unfold buffer_scores. rewrite all_scores_df_flat_map.
    rewrite (@filter_flat_map_other ScoredRow row_Buffer
               (fun b => score (merged_df efficiency_df functionality_df b))).
    + unfold merged_df. rewrite buffer_rows_absent; [reflexivity|].
      intros H. apply Hout. now apply buffer_distances_spec.
    + intros b' r Hr. apply In_score_inv in Hr. destruct Hr as [Hm _].
      now apply In_merged_df_buffer in Hm.
    + exact Hout.
Qed.

Lemma buffer_rows_app (e1 e2 : list EfficiencyRow) (b : Z) :
  buffer_rows (e1 ++ e2) b = buffer_rows e1 b ++ buffer_rows e2 b.
Proof. unfold buffer_rows. apply filter_app. Qed.

(** X7.  The scores of a buffer group depend on the efficiency rows of
    that buffer distance only (and on the functionality table): two
    efficiency tables with the same rows for a distance give the same group,
    so rows of other distances, put before or after, change nothing. *)
Theorem group_scores_depend_on_own_buffer :
  forall (e1 e2 : list EfficiencyRow)
         (functionality_df : list FunctionalityRow) (b : Z),
    (buffer_rows e1 b = buffer_rows e2 b ->
     buffer_scores (all_scores_df e1 functionality_df) b
     = buffer_scores (all_scores_df e2 functionality_df) b) /\
    ((forall e, In e e2 -> Buffer_Distance_km e <> b) ->
     buffer_scores (all_scores_df (e1 ++ e2) functionality_df) b
     = buffer_scores (all_scores_df e1 functionality_df) b /\
     buffer_scores (all_scores_df (e2 ++ e1) functionality_df) b
     = buffer_scores (all_scores_df e1 functionality_df) b).
Proof.
  intros e1 e2 F b.
  assert (Hsame : forall a c, buffer_rows a b = buffer_rows c b ->
            buffer_scores (all_scores_df a F) b
            = buffer_scores (all_scores_df c F) b).
  { intros a c H. rewrite !buffer_scores_any. unfold merged_df.
    now rewrite H. }
  split; [apply Hsame|].
  intros Hother.
  assert (E2 : buffer_rows e2 b = []).
  { apply buffer_rows_absent. intros Hin. apply in_map_iff in Hin.
    destruct Hin as (e & Eb & He). exact (Hother e He Eb). }
  split; apply Hsame; rewrite buffer_rows_app, E2.
  - apply app_nil_r.
  - reflexivity.
Qed.

Lemma group_scores_depend_on_own_buffer_witness :
  (forall e, In e ten_km_efficiency_df -> Buffer_Distance_km e <> 5%Z) /\
  buffer_scores
    (all_scores_df (scenario_efficiency_df ++ ten_km_efficiency_df)
                   scenario_functionality_df) 5
  = buffer_scores
      (all_scores_df scenario_efficiency_df scenario_functionality_df) 5.
Proof.
  assert (H : forall e, In e ten_km_efficiency_df ->
                        Buffer_Distance_km e <> 5%Z).
  { intros e [<-|[<-|[]]]; discriminate. }
  split; [exact H|].
  exact (proj1 (proj2 (group_scores_depend_on_own_buffer
                         scenario_efficiency_df ten_km_efficiency_df
                         scenario_functionality_df 5) H)).
Defined.

(* -- the loop -- *)

Lemma dict_get_set (V : Type) (d : list (Z * V)) (k k' : Z) (v : V) :
  dict_get (dict_set d k v) k' =
  if (k =? k')%Z then Some v else dict_get d k'.
Proof.
  induction d as [|[k0 v0] t IH]; simpl.
  - reflexivity.
  - destruct (Z.eqb_spec k0 k) as [->|Hne]; simpl.
    + now destruct (k =? k')%Z.
    + destruct (Z.eqb_spec k0 k') as [->|Hne'].
      * destruct (Z.eqb_spec k k') as [->|_]; [congruence | reflexivity].
      * exact IH.
Qed.

Lemma loop_from_state (efficiency_df : list EfficiencyRow)
  (functionality_df : list FunctionalityRow) (bs : list Z) :
  forall st,
    scores_so_far
      (fold_left (loop_body efficiency_df functionality_df) bs st)
    = scores_so_far st
      ++ map (process_buffer efficiency_df functionality_df) bs /\
    forall b,
      dict_get (results (fold_left
                           (loop_body efficiency_df functionality_df) bs st))
               b
      = if in_dec Z.eq_dec b bs
        then Some (score (merged_df efficiency_df functionality_df b))
        else dict_get (results st) b.
Proof.
  induction bs as [|b0 t IH]; intros st; simpl.
  - split; [now rewrite app_nil_r | reflexivity].
  - destruct (IH (loop_body efficiency_df functionality_df st b0))
      as [IH1 IH2].
    split.
    + rewrite IH1. simpl. now rewrite <- app_assoc.
    + intros b. rewrite IH2. simpl results. rewrite dict_get_set.
      destruct (in_dec Z.eq_dec b t) as [Hin|Hout].
      * destruct (Z.eq_dec b0 b); reflexivity.
      * destruct (Z.eqb_spec b0 b) as [->|Hne].
        -- destruct (Z.eq_dec b b); [reflexivity | congruence].
        -- destruct (Z.eq_dec b0 b) as [E|_]; [contradiction | reflexivity].
Qed.

(** X8.  After the scoring loop, [all_criticality_scores] holds the
    tables of the buffer distances in order, and [results[b]] is defined
    exactly for the distances that occur in the efficiency table (reading
    another key, such as [results[5]] without 5 km rows, raises [KeyError]).
    [results[b]] holds the same rows as the part of the comprehensive table
    for [b], so the top ten drawn from [results] is the top ten of the
    summary. *)
Theorem scoring_loop_state :
  forall (efficiency_df : list EfficiencyRow)
         (functionality_df : list FunctionalityRow),
    scores_so_far (scoring_loop efficiency_df functionality_df)
      = all_criticality_scores efficiency_df functionality_df /\
    (forall b,
        In b (map Buffer_Distance_km efficiency_df) ->
        dict_get (results (scoring_loop efficiency_df functionality_df)) b
        = Some (buffer_scores
                  (all_scores_df efficiency_df functionality_df) b)) /\
    (forall b,
        ~ In b (map Buffer_Distance_km efficiency_df) ->
        dict_get (results (scoring_loop efficiency_df functionality_df)) b
        = None) /\
    (forall (sort : sort_algorithm) (b : Z) (rows : list ScoredRow),
        dict_get (results (scoring_loop efficiency_df functionality_df)) b
        = Some rows ->
        top_bridges sort rows
        = top_of_buffer sort
            (all_scores_df efficiency_df functionality_df) b).
Proof.
  intros E F. unfold scoring_loop.
  destruct (loop_from_state E F (buffer_distances E)
              {| results := []; scores_so_far := [] |}) as [H1 H2].
  assert (Hin : forall b, In b (map Buffer_Distance_km E) ->
            dict_get (results (fold_left (loop_body E F)
                                 (buffer_distances E)
                                 {| results := []; scores_so_far := [] |})) b
            = Some (buffer_scores (all_scores_df E F) b)).
  { intros b Hb. rewrite H2, buffer_scores_any.
    destruct (in_dec Z.eq_dec b (buffer_distances E)) as [_|Hout];
      [reflexivity|].
    exfalso. apply Hout. now apply buffer_distances_spec. }
  assert (Hout : forall b, ~ In b (map Buffer_Distance_km E) ->
            dict_get (results (fold_left (loop_body E F)
                                 (buffer_distances E)
                                 {| results := []; scores_so_far := [] |})) b
            = None).
  { intros b Hb. rewrite H2.
    destruct (in_dec Z.eq_dec b (buffer_distances E)) as [Hin'|_];
      [|reflexivity].
    exfalso. apply Hb. now apply buffer_distances_spec. }
  split; [exact H1|]. split; [exact Hin|]. split; [exact Hout|].
  intros sort b rows Hget. unfold top_of_buffer.
  destruct (in_dec Z.eq_dec b (map Buffer_Distance_km E)) as [Hb|Hb].
  - rewrite (Hin b Hb) in Hget. now injection Hget as <-.
  - rewrite (Hout b Hb) in Hget. discriminate.
Qed.

Lemma scoring_loop_state_witness :
  ~ In 5%Z (map Buffer_Distance_km ten_km_efficiency_df) /\
  dict_get (results (scoring_loop ten_km_efficiency_df
                                  scenario_functionality_df)) 5 = None /\
  In 10%Z (map Buffer_Distance_km ten_km_efficiency_df) /\
  dict_get (results (scoring_loop ten_km_efficiency_df
                                  scenario_functionality_df)) 10
  = Some (buffer_scores
            (all_scores_df ten_km_efficiency_df scenario_functionality_df)
            10).
Proof.
  assert (H5 : ~ In 5%Z (map Buffer_Distance_km ten_km_efficiency_df)).
  { simpl. intros [H|[H|[]]]; discriminate. }
  assert (H10 : In 10%Z (map Buffer_Distance_km ten_km_efficiency_df))
    by (left; reflexivity).
  split; [exact H5|]. split.
  - exact (proj1 (proj2 (proj2 (scoring_loop_state
             ten_km_efficiency_df scenario_functionality_df))) 5%Z H5).
  - split; [exact H10|].
    exact (proj1 (proj2 (scoring_loop_state
             ten_km_efficiency_df scenario_functionality_df)) 10%Z H10).
Defined.

(* ------------------------------------------------------------------ *)
(** ** Reporter: the top ten *)
(* ------------------------------------------------------------------ *)

Lemma StronglySorted_app_cross (A : Type) (R : A -> A -> Prop)
  (l1 l2 : list A) :
  StronglySorted R (l1 ++ l2) ->
  forall x y, In x l1 -> In y l2 -> R x y.
Proof.
  induction l1 as [|a t IH]; simpl; intros Hs x y Hx Hy; [destruct Hx|].
  inversion Hs as [|? ? Hs' Ha]; subst.
  destruct Hx as [<-|Hx].
  - rewrite Forall_forall in Ha. apply Ha. apply in_or_app. now right.
  - now apply IH.
Qed.

(** X9.  The rows left out of the top ten never outrank a row in it:
    the group splits into the top ten and a rest such that every row of the
    top ten may stand before every row of the rest (its score is at least as
    high, or the other score is NaN). *)
Theorem top_bridges_dominate_rest :
  forall sort : sort_algorithm,
    sort_contract sort ->
    forall scores : list ScoredRow,
      exists rest,
        Permutation (top_bridges sort scores ++ rest) scores /\
        forall r r', In r (top_bridges sort scores) -> In r' rest ->
                     row_before r r' = true.
Proof.
  intros sort Hsort scores.
  exists (skipn 10 (sort_values_desc sort scores)). unfold top_bridges.
  split.
  - rewrite firstn_skipn. exact (sort_values_desc_perm Hsort scores).
  - apply (@StronglySorted_app_cross _ (fun r1 r2 => row_before r1 r2 = true)).
    rewrite firstn_skipn.
    apply (proj2 Hsort ScoredRow row_before
             row_before_total row_before_transitive).
Qed.

Lemma top_bridges_dominate_rest_witness :
  sort_contract tie_reversing_sort /\
  exists rest,
    Permutation (top_bridges tie_reversing_sort scenario_scores ++ rest)
                scenario_scores.
Proof.
  split; [exact tie_reversing_sort_contract|].
  destruct (top_bridges_dominate_rest tie_reversing_sort_contract
              scenario_scores) as (rest & Hp & _).
  exists rest. exact Hp.
Defined.

Section SortedUnique.

Variable A : Type.
Variable R : A -> A -> Prop.

(** Two sorted arrangements of the same elements coincide when elements
    that may stand before each other both ways are equal. *)
Lemma sorted_arrangement_unique (l1 : list A) :
  forall l2,
    (forall x y, In x l1 -> In y l1 -> R x y -> R y x -> x = y) ->
    StronglySorted R l1 -> StronglySorted R l2 -> Permutation l1 l2 ->
    l1 = l2.
Proof.
  induction l1 as [|x t1 IH]; intros l2 Hanti H1 H2 Hp.
  - apply Permutation_nil in Hp. now subst.
  - destruct l2 as [|y t2].
    + apply Permutation_sym, Permutation_nil in Hp. discriminate.
    + inversion H1 as [|? ? H1' Hx]; subst.
      inversion H2 as [|? ? H2' Hy]; subst.
      rewrite Forall_forall in Hx, Hy.
      assert (Exy : x = y).
      { assert (Hxin : In x (y :: t2))
          by (apply (Permutation_in _ Hp); now left).
        assert (Hyin : In y (x :: t1))
          by (apply (Permutation_in _ (Permutation_sym Hp)); now left).
        destruct Hxin as [E|Hxin]; [now symmetry|].
        destruct Hyin as [E|Hyin]; [exact E|].
        apply Hanti; [now left | now right | now apply Hx | now apply Hy]. }
      subst y. f_equal. apply IH; auto.
      * intros a b Ha Hb. apply Hanti; now right.
      * now apply Permutation_cons_inv in Hp.
Qed.

End SortedUnique.

(** X10.  The sorting algorithm matters for ties only: if rows of a
    group that may stand before each other both ways (equal scores, or both
    NaN) are identical rows, every algorithm within the contract of
    [sort_values] yields the same top ten. *)
Theorem top_bridges_unique_without_ties :
  forall sort1 sort2 : sort_algorithm,
    sort_contract sort1 -> sort_contract sort2 ->
    forall scores : list ScoredRow,
      (forall r1 r2, In r1 scores -> In r2 scores ->
         row_before r1 r2 = true -> row_before r2 r1 = true -> r1 = r2) ->
      top_bridges sort1 scores = top_bridges sort2 scores.
Proof.
  intros sort1 sort2 H1 H2 scores Hanti. unfold top_bridges. f_equal.
  apply (@sorted_arrangement_unique _ (fun r1 r2 => row_before r1 r2 = true)).
  - intros x y Hx Hy. apply Hanti.
    + exact (Permutation_in _ (sort_values_desc_perm H1 scores) Hx).
    + exact (Permutation_in _ (sort_values_desc_perm H1 scores) Hy).
  - apply (proj2 H1 ScoredRow row_before
             row_before_total row_before_transitive).
  - apply (proj2 H2 ScoredRow row_before
             row_before_total row_before_transitive).
  - rewrite (sort_values_desc_perm H1 scores).
    symmetry. exact (sort_values_desc_perm H2 scores).
Qed.

Lemma top_bridges_unique_without_ties_witness :
  sort_contract stable_sort_algorithm /\
  sort_contract tie_reversing_sort /\
  top_bridges stable_sort_algorithm scenario_scores
  = top_bridges tie_reversing_sort scenario_scores.
Proof.
  split; [exact stable_sort_algorithm_contract|].
  split; [exact tie_reversing_sort_contract|].
  apply (top_bridges_unique_without_ties
           stable_sort_algorithm_contract tie_reversing_sort_contract).
  intros r1 r2 Hr1 Hr2.
  destruct Hr1 as [<-|[<-|[]]]; destruct Hr2 as [<-|[<-|[]]];
    intros B1 B2; try reflexivity;
    (vm_compute in B1; discriminate B1)
    || (vm_compute in B2; discriminate B2).
Defined.

Lemma Permutation_filter_length (A : Type) (p : A -> bool) (l1 l2 : list A) :
  Permutation l1 l2 -> length (filter p l1) = length (filter p l2).
Proof.
  induction 1 as [|x l l' _ IH|x y l|l l' l'' _ IH1 _ IH2]; simpl.
  - reflexivity.
  - destruct (p x); simpl; now rewrite IH.
  - destruct (p x), (p y); reflexivity.
  - now rewrite IH1.
Qed.

Lemma row_before_nan_first (r1 r2 : ScoredRow) :
  Criticality_Score r1 = NaN -> row_before r1 r2 = true ->
  Criticality_Score r2 = NaN.
Proof.
  unfold row_before. intros ->.
  destruct (Criticality_Score r2); simpl; congruence.
Qed.

(** In a sorted table, a NaN score among the first [n] rows leaves fewer
    than [n] rows with a number as score. *)
Lemma sorted_nan_in_head (l : list ScoredRow) :
  StronglySorted (fun r1 r2 => row_before r1 r2 = true) l ->
  forall n r, In r (firstn n l) -> Criticality_Score r = NaN ->
    length (filter (fun r => notna (Criticality_Score r)) l) < n.
Proof.
  induction 1 as [|x t Hs IH Hx]; intros n r Hr Hnan.
  - destruct n; destruct Hr.
  - destruct n as [|n]; [destruct Hr|]. simpl in Hr. simpl filter.
    destruct (Criticality_Score x) eqn:Ex; simpl;
      try (destruct Hr as [<-|Hr]; [congruence|];
           apply -> Nat.succ_lt_mono; now apply (IH n r)).
    assert (E : filter (fun r => notna (Criticality_Score r)) t = []).
    { rewrite Forall_forall in Hx. clear - Hx Ex.
      induction t as [|y u IHu]; simpl; [reflexivity|].
      rewrite (@row_before_nan_first x y Ex) by (apply Hx; now left).
      simpl. apply IHu. intros z Hz. apply Hx. now right. }
    rewrite E. simpl. lia.
Qed.

(** X11.  NaN scores come last: when at least ten rows of a group have
    a number as score, no row with a NaN score is in the top ten. *)
Theorem top_bridges_without_nan :
  forall sort : sort_algorithm,
    sort_contract sort ->
    forall scores : list ScoredRow,
      10 <= length (filter (fun r => notna (Criticality_Score r)) scores) ->
      forall r, In r (top_bridges sort scores) ->
                Criticality_Score r <> NaN.
Proof.
  intros sort Hsort scores Hten r Hr Hnan.
  pose proof (proj2 Hsort ScoredRow row_before
                row_before_total row_before_transitive scores) as Hs.
  pose proof (sorted_nan_in_head Hs 10 r Hr Hnan) as Hlt.
  rewrite (Permutation_filter_length _
             (sort_values_desc_perm Hsort scores)) in Hlt.
  lia.
Qed.

Lemma top_bridges_without_nan_witness :
  sort_contract tie_reversing_sort /\
  10 <= length (filter (fun r => notna (Criticality_Score r))
                       (score twelve_row_group)) /\
  Forall (fun r => Criticality_Score r <> NaN)
         (top_bridges tie_reversing_sort (score twelve_row_group)).
Proof.
  assert (H : 10 <= length (filter (fun r => notna (Criticality_Score r))
                                   (score twelve_row_group)))
    by (vm_compute; lia).
  split; [exact tie_reversing_sort_contract|]. split; [exact H|].
  apply Forall_forall.
  exact (top_bridges_without_nan tie_reversing_sort_contract _ H).
Defined.

(* ------------------------------------------------------------------ *)
(** ** Reporter: the summary table and the frequencies *)
(* ------------------------------------------------------------------ *)


Section SummaryFacts.

Variable sort : sort_algorithm.
Hypothesis sort_ok : sort_contract sort.




End SummaryFacts.



Lemma StronglySorted_filter (A : Type) (R : A -> A -> Prop)
  (p : A -> bool) (l : list A) :
  StronglySorted R l -> StronglySorted R (filter p l).
Proof.
  induction 1 as [|x t Hs IH Hx]; simpl; [constructor|].
  destruct (p x); [|exact IH].
  constructor; [exact IH|].
  rewrite Forall_forall in Hx |- *. intros y Hy.
  apply filter_In in Hy. apply Hx. tauto.
Qed.

Lemma count_before_total :
  total (fun p q : string * nat => Nat.leb (snd q) (snd p)).
Proof.
  intros p q. destruct (Nat.leb_spec (snd q) (snd p)); [now left|].
  right. apply Nat.leb_le. lia.
Qed.

Lemma count_before_transitive :
  transitive (fun p q : string * nat => Nat.leb (snd q) (snd p)).
Proof.
  intros p q r H1 H2. apply Nat.leb_le in H1, H2. apply Nat.leb_le. lia.
Qed.

Lemma count_occ_map_filter (summary : list SummaryRow) (k : string) :
  count_occ string_dec (map s_Bridge_IOP summary) k
  = length (bridge_details summary k).
Proof.
  unfold bridge_details. induction summary as [|s t IH]; simpl;
    [reflexivity|].
  destruct (string_dec (s_Bridge_IOP s) k) as [E|E].
  - rewrite (proj2 (String.eqb_eq _ _) E). simpl. now rewrite IH.
  - rewrite (proj2 (String.eqb_neq _ _) E). exact IH.
Qed.

Section FrequentFacts.

Variable sort : sort_algorithm.
Hypothesis sort_ok : sort_contract sort.

Lemma In_value_counts (col : list string) (k : string) (n : nat) :
  In (k, n) (value_counts sort col) ->
  In k col /\ n = count_occ string_dec col k.
Proof.
  unfold value_counts. intros H.
  apply (Permutation_in _ (proj1 sort_ok _ _ _)) in H.
  apply in_map_iff in H. destruct H as (k' & E & Hk).
  injection E as -> <-. split; [|reflexivity].
  exact (proj1 (@unique_In string String.eqb String.eqb_eq _ _) Hk).
Qed.

Lemma value_counts_sorted (col : list string) :
  StronglySorted (fun p q => Nat.leb (snd q) (snd p) = true)
                 (value_counts sort col).
Proof.
  unfold value_counts.
  apply (proj2 sort_ok _ _ count_before_total count_before_transitive).
Qed.

End FrequentFacts.

(** X13.  When some bridge is in more than one top ten, the bridge
    picked as the most frequent one is counted more than once, its count is
    the number of its rows in the summary table (the rows shown as its
    details), and no bridge of the summary is counted more often. *)
Theorem most_frequent_bridge_is_maximal :
  forall sort : sort_algorithm,
    sort_contract sort ->
    forall (summary : list SummaryRow) (bridge : string),
      most_frequent_bridge (frequent_bridges (bridge_frequency sort summary))
      = Some bridge ->
      In (bridge, length (bridge_details summary bridge))
         (bridge_frequency sort summary) /\
      1 < length (bridge_details summary bridge) /\
      forall other,
        length (bridge_details summary other)
        <= length (bridge_details summary bridge).
Proof.
  intros sort Hsort summary bridge Hmost.
  set (n := length (bridge_details summary bridge)).
  unfold bridge_frequency in *.
  set (col := map s_Bridge_IOP summary) in *.
  destruct (frequent_bridges (value_counts sort col)) as [|[k c] rest] eqn:Ef;
    [discriminate|].
  simpl in Hmost. injection Hmost as ->.
  assert (Hhead : In (bridge, c) (frequent_bridges (value_counts sort col)))
    by (rewrite Ef; now left).
  unfold frequent_bridges in Hhead. apply filter_In in Hhead.
  destruct Hhead as [Hin Hc]. simpl in Hc. apply Nat.ltb_lt in Hc.
  destruct (In_value_counts Hsort _ _ _ Hin) as [_ Ec].
  assert (En : c = n).
  { unfold n. rewrite Ec. apply count_occ_map_filter. }
  rewrite En in Hin, Hc, Ef. split; [exact Hin|]. split; [exact Hc|].
  intros other. rewrite <- count_occ_map_filter. fold col.
  destruct (in_dec string_dec other col) as [Hother|Hother].
  - set (m := count_occ string_dec col other).
    assert (Hm : In (other, m) (value_counts sort col)).
    { unfold value_counts.
      apply (Permutation_in _ (Permutation_sym (proj1 Hsort _ _ _))).
      apply in_map_iff. exists other. split; [reflexivity|].
      exact (proj2 (@unique_In string String.eqb String.eqb_eq _ _) Hother). }
    destruct (Nat.ltb 1 m) eqn:Em.
    + assert (Hf : In (other, m) (frequent_bridges (value_counts sort col))).
      { unfold frequent_bridges. apply filter_In. split; [exact Hm|exact Em]. }
      pose proof (StronglySorted_filter (fun p => Nat.ltb 1 (snd p))
                    (value_counts_sorted Hsort col)) as Hs.
      fold (frequent_bridges (value_counts sort col)) in Hs.
      rewrite Ef in Hs, Hf.
      destruct Hf as [E|Hf]; [injection E as _ <-; lia|].
      inversion Hs as [|? ? _ Hall]; subst.
      rewrite Forall_forall in Hall. specialize (Hall _ Hf).
      simpl in Hall. apply Nat.leb_le in Hall. exact Hall.
    + apply Nat.ltb_ge in Em. lia.
  - rewrite (proj1 (count_occ_not_In string_dec col other) Hother). lia.
Qed.

Lemma most_frequent_bridge_is_maximal_witness :
  sort_contract stable_sort_algorithm /\
  most_frequent_bridge
    (frequent_bridges
       (bridge_frequency stable_sort_algorithm
          (notebook_summary_df stable_sort_algorithm
             eleven_buffers_efficiency_df scenario_functionality_df)))
  = Some "B1"%string /\
  1 < length (bridge_details
                (notebook_summary_df stable_sort_algorithm
                   eleven_buffers_efficiency_df scenario_functionality_df)
                "B1").
Proof.
  assert (H : most_frequent_bridge
                (frequent_bridges
                   (bridge_frequency stable_sort_algorithm
                      (notebook_summary_df stable_sort_algorithm
                         eleven_buffers_efficiency_df
                         scenario_functionality_df)))
              = Some "B1"%string) by reflexivity.
  split; [exact stable_sort_algorithm_contract|]. split; [exact H|].
  exact (proj1 (proj2 (most_frequent_bridge_is_maximal
                         stable_sort_algorithm_contract _ H))).
Defined.

(* ------------------------------------------------------------------ *)
(** ** The grid of subplots *)
(* ------------------------------------------------------------------ *)

Lemma subplot_cells_overflow (n : nat) :
  forall i, i <= 12 -> 12 < i + n -> subplot_cells_from i n = None.
Proof.
  induction n as [|n IH]; intros i Hi Hn; [lia|]. simpl.
  destruct (Nat.eq_dec i 12) as [->|Hne]; [reflexivity|].
  rewrite (IH (S i)) by lia. now destruct (subplot_cell i).
Qed.

Ltac distinct_cells :=
  repeat (constructor; [simpl; intuition discriminate|]); constructor.

Ltac cells_in_grid :=
  intros c Hc; simpl in Hc;
  repeat (destruct Hc as [<-|Hc]; [simpl; lia|]); destruct Hc.

(** X14.  Up to twelve buffer distances fit the 4 x 3 grid: every
    subplot gets a cell inside the grid and no two share one.  With fewer
    than twelve, the cell [gs[3, 2]] remains free and takes the colorbar;
    with exactly twelve it is taken by the last subplot and the colorbar is
    left out; with more than twelve the loop leaves the grid
    ([IndexError]). *)
Theorem subplot_grid_layout :
  forall n : nat,
    (n <= 12 ->
     exists cells,
       subplot_cells n = Some cells /\
       length cells = n /\
       NoDup cells /\
       (forall c, In c cells -> fst c < 4 /\ snd c < 3) /\
       (n < 12 -> colorbar_cell n = Some (3, 2) /\ ~ In (3, 2) cells) /\
       (n = 12 -> colorbar_cell n = None /\ In (3, 2) cells)) /\
    (12 < n -> subplot_cells n = None).
Proof.
  intros n. split.
  - intros Hn.
    do 13 (destruct n as [|n];
           [ eexists; split; [reflexivity|];
             split; [reflexivity|];
             split; [distinct_cells|];
             split; [cells_in_grid|];
             split;
             [ intros Hlt;
               first [ exfalso; lia
                     | split; [reflexivity | simpl; intuition discriminate] ]
             | intros He;
               first [ discriminate He
                     | split; [reflexivity | simpl; tauto] ] ]
           | ]).
    lia.
  - intros Hn. unfold subplot_cells. apply subplot_cells_overflow; lia.
Qed.

Lemma subplot_grid_layout_witness :
  11 <= 12 /\ 11 < 12 /\
  (exists cells, subplot_cells 11 = Some cells /\ ~ In (3, 2) cells) /\
  12 < 13 /\ subplot_cells 13 = None.
Proof.
  assert (H1 : 11 <= 12) by lia. assert (H2 : 11 < 12) by lia.
  assert (H3 : 12 < 13) by lia.
  split; [exact H1|]. split; [exact H2|]. split.
  - destruct (proj1 (subplot_grid_layout 11) H1)
      as (cells & E & _ & _ & _ & Hfree & _).
    exists cells. split; [exact E | exact (proj2 (Hfree H2))].
  - split; [exact H3|]. exact (proj2 (subplot_grid_layout 13) H3).
Defined.

(* ------------------------------------------------------------------ *)
(** ** The join and the order of the functionality table *)
(* ------------------------------------------------------------------ *)

Lemma Permutation_filter_perm (A : Type) (p : A -> bool) (l1 l2 : list A) :
  Permutation l1 l2 -> Permutation (filter p l1) (filter p l2).
Proof.
  induction 1 as [|x l l' _ IH|x y l|l l' l'' _ IH1 _ IH2]; simpl.
  - constructor.
  - destruct (p x); [now constructor | exact IH].
  - destruct (p x), (p y); try reflexivity. apply perm_swap.
  - now rewrite IH1.
Qed.

Lemma partners_at_most_one (right : list FunctionalityRow) (k : string) :
  NoDup (map func_Bridge_IOP right) ->
  length (filter (fun r => String.eqb k (func_Bridge_IOP r)) right) <= 1.
Proof.
  induction right as [|r t IH]; simpl; intros Hnd; [lia|].
  inversion Hnd as [|? ? Hnot Hnd']; subst.
  destruct (String.eqb k (func_Bridge_IOP r)) eqn:E.
  - apply String.eqb_eq in E. rewrite filter_absent_key; [simpl; lia|].
    now rewrite E.
  - now apply IH.
Qed.

Lemma short_Permutation_eq (A : Type) (l1 l2 : list A) :
  length l1 <= 1 -> Permutation l1 l2 -> l1 = l2.
Proof.
  intros Hlen Hp. destruct l1 as [|a [|b t]].
  - apply Permutation_nil in Hp. now symmetry.
  - apply Permutation_length_1_inv in Hp. now symmetry.
  - simpl in Hlen. lia.
Qed.

Lemma merge_right_Permutation (left : list EfficiencyRow)
  (right right' : list FunctionalityRow) :
  NoDup (map func_Bridge_IOP right) -> Permutation right right' ->
  merge left right = merge left right'.
Proof.
  intros Hnd Hp. unfold merge. apply flat_map_ext. intros l. f_equal.
  apply short_Permutation_eq.
  - now apply partners_at_most_one.
  - now apply Permutation_filter_perm.
Qed.

(** X15.  When bridges are unique in the functionality table, the order
    of its rows is irrelevant: a rearranged table gives the same joined
    table for every buffer distance and the same comprehensive table. *)
Theorem functionality_order_irrelevant :
  forall (efficiency_df : list EfficiencyRow)
         (functionality_df functionality_df' : list FunctionalityRow),
    NoDup (map func_Bridge_IOP functionality_df) ->
    Permutation functionality_df functionality_df' ->
    (forall b, merged_df efficiency_df functionality_df b
               = merged_df efficiency_df functionality_df' b) /\
    all_scores_df efficiency_df functionality_df
    = all_scores_df efficiency_df functionality_df'.
Proof.
  intros E F F' Hnd Hp.
  assert (Hm : forall b, merged_df E F b = merged_df E F' b).
  { intros b. unfold merged_df. now apply merge_right_Permutation. }
  split; [exact Hm|].
  rewrite !all_scores_df_flat_map. apply flat_map_ext. intros b.
  now rewrite Hm.
Qed.

Lemma functionality_order_irrelevant_witness :
  NoDup (map func_Bridge_IOP scenario_functionality_df) /\
  Permutation scenario_functionality_df (rev scenario_functionality_df) /\
  all_scores_df scenario_efficiency_df scenario_functionality_df
  = all_scores_df scenario_efficiency_df (rev scenario_functionality_df).
Proof.
  assert (H1 : NoDup (map func_Bridge_IOP scenario_functionality_df)).
  { repeat constructor; simpl; intuition discriminate. }
  assert (H2 : Permutation scenario_functionality_df
                           (rev scenario_functionality_df))
    by apply Permutation_rev.
  split; [exact H1|]. split; [exact H2|].
  exact (proj2 (functionality_order_irrelevant
                  scenario_efficiency_df H1 H2)).
Defined.

(* ------------------------------------------------------------------ *)
(** ** Edge cases of the scorer *)
(* ------------------------------------------------------------------ *)

Lemma merge_no_common (left : list EfficiencyRow)
  (right : list FunctionalityRow) :
  (forall e f, In e left -> In f right ->
               Bridge_IOP e <> func_Bridge_IOP f) ->
  merge left right = [].
Proof.
  intros H. destruct (merge left right) as [|m t] eqn:E; [reflexivity|].
  assert (Hm : In m (merge left right)) by (rewrite E; now left).
  apply In_merge in Hm. destruct Hm as (He & f & Hf & Ek & _).
  exfalso. exact (H _ _ He Hf Ek).
Qed.

Lemma flat_map_nil (A B : Type) (g : A -> list B) (l : list A) :
  (forall a, In a l -> g a = []) -> flat_map g l = [].
Proof.
  induction l as [|a t IH]; simpl; intros H; [reflexivity|].
  rewrite (H a) by now left. apply IH. intros b Hb. apply H. now right.
Qed.

(** X16.  If no bridge occurs in both tables, the inner join drops every
    row.  With at least one efficiency row, [pd.concat] returns a
    comprehensive table without rows, no row reaches the summary, and the
    notebook stops at [summary_df['Bridge IOP']] with [KeyError].  With no
    efficiency row the loop appends nothing and the notebook stops earlier,
    at [pd.concat], with [ValueError]. *)
Theorem no_common_bridge_raises :
  forall sort : sort_algorithm,
    sort_contract sort ->
    forall (efficiency_df : list EfficiencyRow)
           (functionality_df : list FunctionalityRow),
      (forall e f, In e efficiency_df -> In f functionality_df ->
                   Bridge_IOP e <> func_Bridge_IOP f) ->
      (efficiency_df <> [] ->
       notebook_all_scores_df efficiency_df functionality_df = Ok [] /\
       notebook_summary_df sort efficiency_df functionality_df = [] /\
       notebook_bridge_frequency sort efficiency_df functionality_df
       = Raise KeyError) /\
      (efficiency_df = [] ->
       notebook_all_scores_df efficiency_df functionality_df
       = Raise ValueError /\
       notebook_bridge_frequency sort efficiency_df functionality_df
       = Raise ValueError).
Proof.
  intros sort Hsort E F Hnone.
  assert (Hall : all_scores_df E F = []).
  { rewrite all_scores_df_flat_map. apply flat_map_nil. intros b _.
    unfold merged_df. rewrite merge_no_common; [reflexivity|].
    intros e f He Hf. unfold buffer_rows in He. apply filter_In in He.
    apply Hnone; tauto. }
  assert (Hsum : notebook_summary_df sort E F = []).
  { unfold notebook_summary_df, summary_df. apply flat_map_nil.
    intros b _. rewrite Hall. unfold top_of_buffer, top_bridges. simpl.
    assert (Es : sort_values_desc sort [] = []).
    { apply Permutation_nil. symmetry.
      exact (sort_values_desc_perm Hsort []). }
    now rewrite Es. }
  split.
  - intros Hne.
    assert (Eok : notebook_all_scores_df E F = Ok []).
    { rewrite (notebook_all_scores_df_Ok F Hne). now rewrite Hall. }
    split; [exact Eok|]. split; [exact Hsum|].
    unfold notebook_bridge_frequency. rewrite Eok.
    unfold notebook_summary_df in Hsum. rewrite Hall in Hsum.
    now rewrite Hsum.
  - intros ->. split; reflexivity.
Qed.

Lemma no_common_bridge_raises_witness :
  sort_contract stable_sort_algorithm /\
  scenario_efficiency_df <> [] /\
  notebook_all_scores_df scenario_efficiency_df [] = Ok [] /\
  notebook_bridge_frequency stable_sort_algorithm scenario_efficiency_df []
  = Raise KeyError.
Proof.
  assert (H : forall e (f : FunctionalityRow),
             In e scenario_efficiency_df -> In f [] ->
             Bridge_IOP e <> func_Bridge_IOP f)
    by (intros e f _ []).
  assert (Hne : scenario_efficiency_df <> []) by discriminate.
  split; [exact stable_sort_algorithm_contract|].
  split; [exact Hne|].
  pose proof (proj1 (no_common_bridge_raises
                       stable_sort_algorithm_contract _ _ H) Hne) as T.
  split; [exact (proj1 T) | exact (proj2 (proj2 T))].
Defined.

(** As long as the summary has a row, the guarded steps return what the
    plain definitions compute. *)
Lemma notebook_bridge_frequency_Ok (sort : sort_algorithm)
  (efficiency_df : list EfficiencyRow)
  (functionality_df : list FunctionalityRow) :
  notebook_summary_df sort efficiency_df functionality_df <> [] ->
  notebook_bridge_frequency sort efficiency_df functionality_df
  = Ok (bridge_frequency sort
          (notebook_summary_df sort efficiency_df functionality_df)).
Proof.
  intros Hne.
  assert (HE : efficiency_df <> []).
  { intros ->. now apply Hne. }
  unfold notebook_bridge_frequency.
  rewrite (notebook_all_scores_df_Ok functionality_df HE).
  unfold notebook_summary_df in *. unfold summary_bridge_frequency.
  destruct (summary_df sort (buffer_distances efficiency_df)
              (all_scores_df efficiency_df functionality_df));
    [now elim Hne | reflexivity].
Qed.

Lemma self_scaled_nan (x : float) : fdiv (fsub x x) (fsub x x) = NaN.
Proof.
  destruct x as [q| | |]; try reflexivity.
  rewrite fsub_Fin. apply fdiv_zero_zero; ring.
Qed.

Lemma Series_min_single (x : float) :
  Series_min [x] = x.
Proof. now destruct x. Qed.

Lemma Series_max_single (x : float) :
  Series_max [x] = x.
Proof. now destruct x. Qed.

(** X17.  A buffer group with a single joined bridge has no spread to
    normalize by: whatever the values of the row, its Norm_Func, Norm_Eff
    and criticality score are NaN. *)
Theorem single_row_group_scores_nan :
  forall m : MergedRow,
    map Norm_Func (score [m]) = [NaN] /\
    map Norm_Eff (score [m]) = [NaN] /\
    map Criticality_Score (score [m]) = [NaN].
Proof.
  intros m. unfold score. simpl map.
  rewrite !Series_min_single, !Series_max_single, !self_scaled_nan.
  repeat split.
Qed.

(* ------------------------------------------------------------------ *)
(** ** The bridges drawn in the trend plot *)
(* ------------------------------------------------------------------ *)

Lemma firstn_In_split (A : Type) (n : nat) (l : list A) (x : A) :
  In x l -> In x (firstn n l) \/ In x (skipn n l).
Proof.
  intros H. rewrite <- (firstn_skipn n l) in H. now apply in_app_or in H.
Qed.

(** X18.  The trend plot draws at most five bridges, each counted three
    times or more; a bridge counted three times or more that is not drawn
    is never counted more often than a drawn one. *)
Theorem plotted_bridges_are_most_frequent :
  forall sort : sort_algorithm,
    sort_contract sort ->
    forall summary : list SummaryRow,
      length (plotted_bridges (bridge_frequency sort summary)) <= 5 /\
      (forall bridge,
          In bridge (plotted_bridges (bridge_frequency sort summary)) ->
          3 <= length (bridge_details summary bridge)) /\
      (forall bridge other,
          In bridge (plotted_bridges (bridge_frequency sort summary)) ->
          ~ In other (plotted_bridges (bridge_frequency sort summary)) ->
          3 <= length (bridge_details summary other) ->
          length (bridge_details summary other)
          <= length (bridge_details summary bridge)).
Proof.
  intros sort Hsort summary. unfold plotted_bridges, bridge_frequency.
  set (col := map s_Bridge_IOP summary).
  set (kept := filter (fun p : string * nat => Nat.leb 3 (snd p))
                      (value_counts sort col)).
  assert (Hkept : forall k c, In (k, c) kept ->
            c = length (bridge_details summary k) /\ 3 <= c).
  { intros k c H. unfold kept in H. apply filter_In in H.
    destruct H as [Hin Hc]. cbn [snd] in Hc. apply Nat.leb_le in Hc.
    destruct (In_value_counts Hsort _ _ _ Hin) as [_ ->].
    split; [apply count_occ_map_filter | exact Hc]. }
  assert (Hs : StronglySorted (fun p q => Nat.leb (snd q) (snd p) = true)
                              kept).
  { unfold kept. apply StronglySorted_filter.
    apply (value_counts_sorted Hsort). }
  rewrite firstn_map.
  split; [|split].
  - rewrite length_map, length_firstn. apply Nat.le_min_l.
  - intros bridge Hb. apply in_map_iff in Hb.
    destruct Hb as ([k c] & <- & Hin). simpl.
    assert (Hin' : In (k, c) kept).
    { rewrite <- (firstn_skipn 5 kept). apply in_or_app. now left. }
    destruct (Hkept _ _ Hin') as [<- Hc]. exact Hc.
  - intros bridge other Hb Hnot Hother.
    apply in_map_iff in Hb. destruct Hb as ([k c] & Ek & Hin).
    simpl in Ek. subst k.
    assert (Hin' : In (bridge, c) kept).
    { rewrite <- (firstn_skipn 5 kept). apply in_or_app. now left. }
    destruct (Hkept _ _ Hin') as [Ec _].
    set (m := length (bridge_details summary other)) in *.
    assert (Hm : In (other, m) kept).
    { unfold kept. apply filter_In. split.
      - unfold value_counts.
        apply (Permutation_in _ (Permutation_sym (proj1 Hsort _ _ _))).
        apply in_map_iff. exists other. split.
        + unfold m. now rewrite <- count_occ_map_filter.
        + apply (proj2 (@unique_In string String.eqb String.eqb_eq _ _)).
          apply (count_occ_In string_dec). fold col.
          unfold col. rewrite count_occ_map_filter. fold m. lia.
      - cbn [snd]. now apply Nat.leb_le. }
    destruct (firstn_In_split 5 _ _ Hm) as [Hf|Hsk].
    + exfalso. apply Hnot. apply in_map_iff. exists (other, m). auto.
    + rewrite <- (firstn_skipn 5 kept) in Hs.
      pose proof (@StronglySorted_app_cross _ _ _ _ Hs _ _ Hin Hsk) as Hle.
      cbn [snd] in Hle. apply Nat.leb_le in Hle. rewrite <- Ec. exact Hle.
Qed.

Lemma plotted_bridges_are_most_frequent_witness :
  sort_contract stable_sort_algorithm /\
  In "B1"%string
     (plotted_bridges
        (bridge_frequency stable_sort_algorithm
           (notebook_summary_df stable_sort_algorithm
              eleven_buffers_efficiency_df scenario_functionality_df))) /\
  3 <= length (bridge_details
                 (notebook_summary_df stable_sort_algorithm
                    eleven_buffers_efficiency_df scenario_functionality_df)
                 "B1").
Proof.
  assert (H : In "B1"%string
                (plotted_bridges
                   (bridge_frequency stable_sort_algorithm
                      (notebook_summary_df stable_sort_algorithm
                         eleven_buffers_efficiency_df
                         scenario_functionality_df))))
    by (left; reflexivity).
  split; [exact stable_sort_algorithm_contract|]. split; [exact H|].
  exact (proj1 (proj2 (plotted_bridges_are_most_frequent
                         stable_sort_algorithm_contract _)) _ H).
Defined.

(* ------------------------------------------------------------------ *)
(** ** The reference line of the trend plot *)
(* ------------------------------------------------------------------ *)









(** On a column in which every cell is a text, the preprocessing is
    [normalize]: the tables agree, and [normalize] fails where
    [astype(float)] raises [ValueError]. *)
Lemma preprocess_text_column (df : list RawFunctionalityRow) :
  preprocess
    {| loaded_IOP := map IOP df;
       loaded_Functionality :=
         ObjectColumn (map (fun row => Str (Functionality_str row)) df) |}
  = match normalize df with
    | Some rows => Ok rows
    | None => Raise ValueError
    end.
Proof.
  unfold preprocess, normalize, clean_column, normalized_rows,
    str_rstrip_percent. simpl.
  assert (E : clean_cells (map (fun row => Str (Functionality_str row)) df)
              = astype_float
                  (map (fun s => rstrip is_percent (chars s))
                       (map Functionality_str df))).
  { induction df as [|row t IH]; simpl; [reflexivity|].
    rewrite IH. reflexivity. }
  rewrite E.
  destruct (astype_float
              (map (fun s => rstrip is_percent (chars s))
                   (map Functionality_str df))) as [col|] eqn:Ea;
    [|reflexivity].
  f_equal.
  assert (L : length col = length df).
  { apply astype_float_Some_inv in Ea.
    apply Forall2_length in Ea. now rewrite !length_map in Ea. }
  clear E Ea. revert col L.
  induction df as [|row t IH]; intros [|x col] L; simpl in *;
    try reflexivity; try discriminate.
  f_equal. apply IH. lia.
Qed.
